(** * WebSurfer page-inspection script: a shallow embedding

    The page script [WebSurfer] (an IIFE that closes over the counter
    [nextLabel]) inspects a live document.  This development embeds the
    script's functions over an explicit model of the host document:

    - the node tree (elements, text nodes, shadow roots) is an inductive
      [Tree]; element objects are identified by a [node] number, which is
      what JavaScript's [==] on elements compares;
    - everything the host computes for an element (layout boxes, computed
      cursor, [innerText], the [disabled] flag) is a field of [Element];
    - the only state the script mutates is the attribute map of elements
      ([setAttribute("__elementId", ...)]) and the closure variable
      [nextLabel]; both live in [Page] and are threaded explicitly;
    - a JavaScript call either returns or throws: [completion];
    - the recursion of the Markdown renderer runs on a call stack of
      bounded size, given as a number of activations, and the texts of
      the errors the engine raises are given with it;
    - [JSON.parse] is a parser of JSON texts that returns the tree of
      the text;
    - the object built for one microdata item is a parameter of the
      metadata functions.

    Strings are byte strings; JavaScript's whitespace class is taken on
    its ASCII members.  Coordinates are rationals. *)

From Stdlib Require Import QArith Ascii String.
From stdpp Require Import base option list sorting strings gmap pretty.

Close Scope Q_scope.
Open Scope string_scope.
Open Scope list_scope.

(** ** JavaScript completions *)

Inductive JsError : Type :=
| TypeError (message : string)
| SyntaxError (message : string)
| ReferenceError (message : string)
| RangeError (message : string).

Definition message (e : JsError) : string :=
  match e with
  | TypeError m | SyntaxError m | ReferenceError m | RangeError m => m
  end.

Inductive completion (A : Type) : Type :=
| Normal (a : A)
| Throw (e : JsError).
Arguments Normal {A} a.
Arguments Throw {A} e.

#[global] Instance completion_ret : MRet completion := @Normal.
#[global] Instance completion_bind : MBind completion :=
  λ A B f c, match c with Normal a => f a | Throw e => Throw e end.
#[global] Instance completion_fmap : FMap completion :=
  λ A B f c, match c with Normal a => Normal (f a) | Throw e => Throw e end.

(** [try { body } catch (e) { handler(e) }] *)
Definition try_catch {A} (body : completion A) (handler : JsError → completion A)
  : completion A :=
  match body with
  | Normal a => Normal a
  | Throw e => handler e
  end.

(** ** Strings *)

Module Str.

(** ASCII members of the ECMAScript WhiteSpace and LineTerminator
    classes: TAB, LF, VT, FF, CR, SP. *)
Definition is_ws (c : ascii) : bool :=
  let n := nat_of_ascii c in
  (Nat.leb 9 n && Nat.leb n 13) || Nat.eqb n 32.

Fixpoint ltrim (s : string) : string :=
  match s with
  | String c s' => if is_ws c then ltrim s' else s
  | EmptyString => EmptyString
  end.

Definition rtrim (s : string) : string := String.rev (ltrim (String.rev s)).

(** [String.prototype.trim] *)
Definition trim (s : string) : string := rtrim (ltrim s).

Definition lower (c : ascii) : ascii :=
  let n := nat_of_ascii c in
  if Nat.leb 65 n && Nat.leb n 90 then ascii_of_nat (n + 32) else c.

(** [String.prototype.toLowerCase] *)
Fixpoint toLowerCase (s : string) : string :=
  match s with
  | String c s' => String (lower c) (toLowerCase s')
  | EmptyString => EmptyString
  end.

(** [s.split(" ")]: empty pieces are kept. *)
Fixpoint split_go (cur : string) (s : string) : list string :=
  match s with
  | EmptyString => [String.rev cur]
  | String c s' =>
      if Ascii.eqb c " " then String.rev cur :: split_go "" s'
      else split_go (String c cur) s'
  end.
Definition split_space (s : string) : list string := split_go "" s.

(** [a.join(sep)] *)
Fixpoint join (sep : string) (l : list string) : string :=
  match l with
  | [] => ""
  | [s] => s
  | s :: l' => s +:+ sep +:+ join sep l'
  end.

Definition eqb (a b : string) : bool := bool_decide (a = b).

(** [s.endsWith(t)] for a one-character [t] *)
Definition endsWith (s : string) (c : ascii) : bool :=
  match String.rev s with
  | String d _ => Ascii.eqb c d
  | EmptyString => false
  end.

End Str.

(** ** The host document *)

Definition node := nat.

Record DOMRect := {
  r_left : Q;
  r_top : Q;
  r_width : Q;
  r_height : Q
}.

(** What the host reports for one element object. *)
Record Element := {
  tagName : string;
  attributes : gmap string string;
  disabled : bool;
  offsetWidth : Z;
  offsetHeight : Z;
  clientRects : list DOMRect;          (* getClientRects() *)
  boundingClientRect : DOMRect;        (* getBoundingClientRect() *)
  cursor : string;                     (* getComputedStyle(e)["cursor"] *)
  innerText : string;
  scrollHeight : Z;
  clientHeight : Z
}.

Inductive ShadowMode := Open | Closed.

#[local] Set Warnings "-register-all".

Inductive Tree : Type :=
| Text (data : string)
| Elem (n : node) (childNodes : list Tree) (shadow : option (ShadowMode * list Tree)).

(** Induction on trees with the hypothesis available for all children. *)
Fixpoint Tree_forall_ind (P : Tree → Prop)
    (HText : ∀ data, P (Text data))
    (HElem : ∀ n kids sh, Forall P kids → P (Elem n kids sh))
    (t : Tree) : P t :=
  match t with
  | Text data => HText data
  | Elem n kids sh =>
      HElem n kids sh
        ((fix go (ts : list Tree) : Forall P ts :=
            match ts with
            | [] => List.Forall_nil P
            | t' :: ts' =>
                @List.Forall_cons _ P t' ts' (Tree_forall_ind P HText HElem t') (go ts')
            end) kids)
  end.

Record Document := {
  doc_children : list Tree;               (* children of the Document node *)
  element : node → Element;
  activeElement : option node;            (* document.activeElement *)
  elementFromPoint : Q → Q → option node; (* document.elementFromPoint *)
  css_escape : bool                       (* whether the host defines CSS.escape *)
}.

Definition hasAttribute (d : Document) (n : node) (a : string) : bool :=
  bool_decide (is_Some (attributes (element d n) !! a)).

Definition getAttribute (d : Document) (n : node) (a : string) : option string :=
  attributes (element d n) !! a.

Definition with_attribute (a v : string) (e : Element) : Element :=
  {| tagName := tagName e; attributes := <[a:=v]> (attributes e);
     disabled := disabled e; offsetWidth := offsetWidth e;
     offsetHeight := offsetHeight e; clientRects := clientRects e;
     boundingClientRect := boundingClientRect e; cursor := cursor e;
     innerText := innerText e; scrollHeight := scrollHeight e;
     clientHeight := clientHeight e |}.

Definition setAttribute (n : node) (a v : string) (d : Document) : Document :=
  {| doc_children := doc_children d;
     element := λ m, if decide (m = n) then with_attribute a v (element d m)
                     else element d m;
     activeElement := activeElement d;
     elementFromPoint := elementFromPoint d;
     css_escape := css_escape d |}.

(** *** Tree order and ancestor chains *)

(** The element and its element descendants in tree order.  Shadow trees
    are separate scopes and are not entered. *)
Fixpoint inclusive_descendants (t : Tree) : list node :=
  match t with
  | Text _ => []
  | Elem n kids _ => n :: flat_map inclusive_descendants kids
  end.

Definition scope_elements (roots : list Tree) : list node :=
  flat_map inclusive_descendants roots.

(** Shadow roots, of either mode, of the elements of a scope, in tree
    order.  A shadow root is given by its children. *)
Fixpoint shadow_roots_of (t : Tree) : list (ShadowMode * list Tree) :=
  match t with
  | Text _ => []
  | Elem _ kids sh =>
      match sh with Some s => [s] | None => [] end
      ++ flat_map shadow_roots_of kids
  end.

(** The chain [n.parentNode, n.parentNode.parentNode, ...] restricted to
    elements, nearest first.  The chain of an element of the document
    tree is followed by the Document node, that of an element of a shadow
    tree by its ShadowRoot; both have a null [parentNode].  [None] when
    [n] does not occur under [t]. *)
Fixpoint chain_in (n : node) (above : list node) (t : Tree) : option (list node) :=
  match t with
  | Text _ => None
  | Elem m kids sh =>
      if decide (m = n) then Some above
      else
        let fix first (f : Tree → option (list node)) (ts : list Tree) :=
          match ts with
          | [] => None
          | t' :: ts' =>
              match f t' with Some c => Some c | None => first f ts' end
          end in
        match first (chain_in n (m :: above)) kids with
        | Some c => Some c
        | None =>
            match sh with
            | Some (_, skids) => first (chain_in n []) skids
            | None => None
            end
        end
  end.

Fixpoint chain_in_forest (n : node) (ts : list Tree) : option (list node) :=
  match ts with
  | [] => None
  | t :: ts' =>
      match chain_in n [] t with
      | Some c => Some c
      | None => chain_in_forest n ts'
      end
  end.

Definition ancestors (d : Document) (n : node) : list node :=
  default [] (chain_in_forest n (doc_children d)).

(** [n.parentNode] when it is an element *)
Definition parentElement (d : Document) (n : node) : option node :=
  head (ancestors d n).

(** *** Selectors *)

(** The selectors the script uses are lists of compound selectors made of
    type, attribute, class and negation tests. *)
Inductive Simple : Type :=
| SType (tag : string)            (* [tag], matched case-insensitively *)
| SAttr (a : string)              (* [[a]] *)
| SAttrEq (a v : string)          (* [[a="v"]] *)
| SClass (c : string)             (* [.c] *)
| SNot (s : Simple).              (* [:not(s)] *)

Definition Compound := list Simple.   (* all tests hold; [[]] is [*] *)
Definition Selector := list Compound. (* comma-separated alternatives *)

Fixpoint simple_matches (e : Element) (s : Simple) : bool :=
  match s with
  | SType tag => Str.eqb (Str.toLowerCase (tagName e)) tag
  | SAttr a => bool_decide (is_Some (attributes e !! a))
  | SAttrEq a v => bool_decide (attributes e !! a = Some v)
  | SClass c =>
      match attributes e !! "class" with
      | Some cl => bool_decide (c ∈ String.words cl)
      | None => false
      end
  | SNot s' => negb (simple_matches e s')
  end.

Definition matches (e : Element) (sel : Selector) : bool :=
  existsb (forallb (simple_matches e)) sel.

(** [root.querySelectorAll(sel)] where [scope] is the list of children of
    [root]: matching descendants in tree order. *)
Definition querySelectorAll (d : Document) (scope : list Tree) (sel : Selector)
  : list node :=
  filter (λ n, matches (element d n) sel = true) (scope_elements scope).

(** The children of the element [n], searched through the whole page. *)
Fixpoint children_in (n : node) (t : Tree) : option (list Tree) :=
  match t with
  | Text _ => None
  | Elem m kids sh =>
      if decide (m = n) then Some kids
      else
        let fix first (ts : list Tree) :=
          match ts with
          | [] => None
          | t' :: ts' =>
              match children_in n t' with Some c => Some c | None => first ts' end
          end in
        match first kids with
        | Some c => Some c
        | None => match sh with Some (_, skids) => first skids | None => None end
        end
  end.

Fixpoint children_in_forest (n : node) (ts : list Tree) : option (list Tree) :=
  match ts with
  | [] => None
  | t :: ts' =>
      match children_in n t with
      | Some c => Some c
      | None => children_in_forest n ts'
      end
  end.

Definition children_of (d : Document) (n : node) : list Tree :=
  default [] (children_in_forest n (doc_children d)).

(** [element.querySelector(sel)] *)
Definition querySelector (d : Document) (n : node) (sel : Selector) : option node :=
  head (querySelectorAll d (children_of d n) sel).

(** [element.closest(sel)]: the element itself or its nearest matching
    ancestor. *)
Definition closest (d : Document) (n : node) (sel : Selector) : option node :=
  head (filter (λ m, matches (element d m) sel = true) (n :: ancestors d n)).

(** [document.getElementById(id)] *)
Definition getElementById (d : Document) (id : string) : option node :=
  if Str.eqb id "" then None
  else head (querySelectorAll d (doc_children d) [[SAttrEq "id" id]]).

(** ** Geometry and visibility oracle *)

Definition isVisible (d : Document) (n : node) : bool :=
  let e := element d n in
  negb (Z.eqb (offsetWidth e) 0) || negb (Z.eqb (offsetHeight e) 0)
  || negb (Nat.eqb (length (clientRects e)) 0).

(** [rect.left + rect.width / 2], [rect.top + rect.height / 2] *)
Definition center (r : DOMRect) : Q * Q :=
  ((r_left r + r_width r / 2)%Q, (r_top r + r_height r / 2)%Q).

(** The loop [while (hit) { if (hit == element) return true;
    hit = hit.parentNode; } return false;] over the chain of [hit].  The
    Document node that ends the chain is not an element, so it never
    equals [element]. *)
Fixpoint isTopmost_walk (elm : node) (chain : list node) : bool :=
  match chain with
  | [] => false
  | hit :: up => if decide (hit = elm) then true else isTopmost_walk elm up
  end.

Definition isTopmost (d : Document) (elm : node) (x y : Q) : bool :=
  match elementFromPoint d x y with
  | None => true
  | Some hit => isTopmost_walk elm (hit :: ancestors d hit)
  end.

(** ** Tree walker *)

(** [el.shadowRoot && el.shadowRoot.mode === "open"]: the [shadowRoot]
    property of the host of a closed root is [null]. *)
Definition open_root (s : ShadowMode * list Tree) : option (list Tree) :=
  match s with (Open, kids) => Some kids | (Closed, _) => None end.

Definition open_roots (scope : list Tree) : list (list Tree) :=
  omap open_root (flat_map shadow_roots_of scope).

(** The [while (stack.length > 0)] loop of [gatherAllElements].  The head
    of [stack] is the end of the JavaScript array: [pop] takes it, and
    the shadow roots pushed by the [forEach] end up on it in reverse. *)
Fixpoint gather_loop (fuel : nat) (d : Document) (selector : Selector)
    (stack : list (list Tree)) (elements : list node) : option (list node) :=
  match stack with
  | [] => Some elements
  | currentRoot :: stack' =>
      match fuel with
      | 0 => None
      | S fuel' =>
          gather_loop fuel' d selector
            (rev (open_roots currentRoot) ++ stack')
            (elements ++ querySelectorAll d currentRoot selector)
      end
  end.

(** Number of open shadow roots reachable below a tree through open
    shadow roots only. *)
Fixpoint open_scopes (t : Tree) : nat :=
  match t with
  | Text _ => 0
  | Elem _ kids sh =>
      match sh with
      | Some (Open, skids) => S (list_sum (map open_scopes skids))
      | _ => 0
      end
      + list_sum (map open_scopes kids)
  end.

Definition scope_weight (scope : list Tree) : nat :=
  S (list_sum (map open_scopes scope)).

Definition gatherAllElements (d : Document) (selector : Selector) : list node :=
  default [] (gather_loop (scope_weight (doc_children d)) d selector
                          [doc_children d] []).

(** ** Interactivity classifier *)

Definition roles : list string :=
  ["scrollbar"; "searchbox"; "slider"; "spinbutton"; "switch"; "tab";
   "treeitem"; "button"; "checkbox"; "gridcell"; "link"; "menuitem";
   "menuitemcheckbox"; "menuitemradio"; "option"; "progressbar"; "radio";
   "textbox"; "combobox"; "menu"; "tree"; "treegrid"; "grid"; "listbox";
   "radiogroup"; "widget"].

Definition inertCursors : list string :=
  ["auto"; "default"; "none"; "text"; "vertical-text"; "not-allowed"; "no-drop"].

(** ["input, select, textarea, button, [href], [onclick],
    [contenteditable], [tabindex]:not([tabindex='-1'])"] *)
Definition main_selector : Selector :=
  [[SType "input"]; [SType "select"]; [SType "textarea"]; [SType "button"];
   [SAttr "href"]; [SAttr "onclick"]; [SAttr "contenteditable"];
   [SAttr "tabindex"; SNot (SAttrEq "tabindex" "-1")]].

Definition role_selector : Selector := [[SAttr "role"]].
Definition any_selector : Selector := [[]].

(** [getComputedStyle] accepts elements only: called on the Document
    node it throws this error. *)
Definition not_an_element : JsError :=
  TypeError "Failed to execute 'getComputedStyle' on 'Window': parameter 1 is not of type 'Element'.".

Definition getCursor (d : Document) (n : node) : string := cursor (element d n).

(** [while (parent && getCursor(parent) == cursor) { node = parent;
    parent = node.parentNode; }], where [chain] lists the element
    ancestors of [node]; past them [parent] is the Document node. *)
Fixpoint climb (d : Document) (cur : string) (nd : node) (chain : list node)
  : completion node :=
  match chain with
  | [] => Throw not_an_element
  | parent :: up =>
      if Str.eqb (getCursor d parent) cur then climb d cur parent up
      else Normal nd
  end.

Definition foldlM {A B} (f : A → B → completion A) : A → list B → completion A :=
  fix go (a : A) (l : list B) : completion A :=
    match l with
    | [] => Normal a
    | b :: l' => a' ← f a b; go a' l'
    end.

Definition push {A} (l : list A) (x : A) : list A := l ++ [x].

Definition getInteractiveElementsNoShaddow (d : Document) : completion (list node) :=
  let results := [] in
  (* the main interactive elements *)
  let results :=
    foldl (λ results n,
             if disabled (element d n) || negb (isVisible d n) then results
             else push results n)
          results (querySelectorAll d (doc_children d) main_selector) in
  (* anything not already included that has a suitable role *)
  let results :=
    foldl (λ results n,
             if disabled (element d n) || negb (isVisible d n) then results
             else if bool_decide (n ∉ results) then
               match getAttribute d n "role" with
               | Some role =>
                   if bool_decide (role ∈ roles) then push results n else results
               | None => results
               end
             else results)
          results (querySelectorAll d (doc_children d) role_selector) in
  (* any element whose cursor implies interactivity *)
  foldlM (λ results n,
            if disabled (element d n) || negb (isVisible d n) then Normal results
            else
              let cur := getCursor d n in
              if bool_decide (cur ∈ inertCursors) then Normal results
              else
                top ← climb d cur n (ancestors d n);
                Normal (if bool_decide (top ∉ results) then push results top
                        else results))
         results (querySelectorAll d (doc_children d) any_selector).

Definition interactive_roles : list string :=
  ["input"; "option"; "select"; "textarea"; "button"; "href"; "onclick";
   "contenteditable"; "tabindex:not([tabindex='-1'])"].

(** [interactive_roles.join(",")]: every entry is a type selector, the
    last one with a negated attribute test. *)
Definition interactive_selector : Selector :=
  [[SType "input"]; [SType "option"]; [SType "select"]; [SType "textarea"];
   [SType "button"]; [SType "href"]; [SType "onclick"];
   [SType "contenteditable"];
   [SType "tabindex"; SNot (SAttrEq "tabindex" "-1")]].

Definition tag (d : Document) (n : node) : string :=
  Str.toLowerCase (tagName (element d n)).

Definition has_topmost_rect (d : Document) (n : node) : bool :=
  existsb (λ rect, let '(x, y) := center rect in isTopmost d n x y)
          (clientRects (element d n)).

Definition getInteractiveElements (d : Document) : completion (list node) :=
  elements_no_shaddow ← getInteractiveElementsNoShaddow d;
  let results :=
    foldl (λ results n,
             if bool_decide (n ∉ results) then
               if has_topmost_rect d n then push results n else results
             else results)
          [] elements_no_shaddow in
  let elements_all := gatherAllElements d interactive_selector in
  Normal
    (foldl (λ results n,
              if Str.eqb (tag d n) "input"
                 && bool_decide (getAttribute d n "type" = Some "file")
              then push results n
              else if Str.eqb (tag d n) "option" then push results n
              else if disabled (element d n) || negb (isVisible d n) then results
              else if bool_decide (tag d n ∈ interactive_roles) then push results n
              else results)
           results elements_all).

(** ** Identity labeler *)

(** The page-lifetime state: the document and the closure variable
    [nextLabel].  The counter is a JavaScript number holding an integer;
    integers are exact in that type far beyond any count of elements, and
    the counter is a natural number here. *)
Record Page := {
  document : Document;
  nextLabel : N
}.

Definition initial_nextLabel : N := 10.

(** The page as the script finds it when it is first evaluated. *)
Definition load (d : Document) : Page :=
  {| document := d; nextLabel := initial_nextLabel |}.

(** The body of the [for] loop of [labelElements]. *)
Definition label_step (p : Page) (n : node) : Page :=
  if hasAttribute (document p) n "__elementId" then p
  else {| document := setAttribute n "__elementId" (pretty (nextLabel p)) (document p);
          nextLabel := N.succ (nextLabel p) |}.

Definition label_loop (elements : list node) (p : Page) : Page :=
  foldl label_step p elements.

(** Returns the completion of the call together with the page it leaves
    behind: attributes set before a throw stay set. *)
Definition labelElements (elements : list node) (p : Page)
  : completion (list node) * Page :=
  let p' := label_loop elements p in
  (getInteractiveElements (document p'), p').

(** ** Focus *)

Fixpoint first_labelled (d : Document) (chain : list node) : option string :=
  match chain with
  | [] => None
  | elm :: up =>
      if hasAttribute d elm "__elementId" then getAttribute d elm "__elementId"
      else first_labelled d up
  end.

(** [null] is [None]. *)
Definition getFocusedElementId (d : Document) : option string :=
  match activeElement d with
  | None => None
  | Some elm => first_labelled d (elm :: ancestors d elm)
  end.

(** ** Role and name resolver *)

Definition roleMapping : gmap string string :=
  list_to_map
    [("a", "link"); ("area", "link"); ("button", "button");
     ("input, type=button", "button"); ("input, type=checkbox", "checkbox");
     ("input, type=email", "textbox"); ("input, type=number", "spinbutton");
     ("input, type=radio", "radio"); ("input, type=range", "slider");
     ("input, type=reset", "button"); ("input, type=search", "searchbox");
     ("input, type=submit", "button"); ("input, type=tel", "textbox");
     ("input, type=text", "textbox"); ("input, type=url", "textbox");
     ("search", "search"); ("select", "combobox"); ("option", "option");
     ("textarea", "textbox")].

(** Returns the pair [[role, tag]].  Only the own properties of
    [roleMapping] are looked up. *)
Definition getApproximateAriaRole (d : Document) (n : node) : string * string :=
  let tg := tag d n in
  let tg :=
    match getAttribute d n "type" with
    | Some ty => if Str.eqb tg "input" then tg +:+ ", type=" +:+ ty else tg
    | None => tg
    end in
  match getAttribute d n "role" with
  | Some r => (r, tg)
  | None =>
      match roleMapping !! tg with
      | Some r => (r, tg)
      | None => ("", tg)
      end
  end.

(** [trimmedInnerText] of a non-null element; every element has a string
    [innerText], and the empty one is falsy. *)
Definition trimmedInnerText (d : Document) (n : node) : string :=
  let text := innerText (element d n) in
  if Str.eqb text "" then "" else Str.trim text.

(** The [aria-labelledby] branch: the loop over [ids]. *)
Definition labelledby_text (d : Document) (value : string) : string :=
  Str.trim
    (foldl (λ buffer id,
              match getElementById d id with
              | Some label => buffer +:+ " " +:+ trimmedInnerText d label
              | None => buffer
              end)
           "" (Str.split_space value)).

(** [document.querySelectorAll(`label[for="${CSS.escape(label_id)}"]`)]:
    the escaped identifier, read back inside the quoted attribute value,
    is the identifier itself.  A host without [CSS.escape] makes the
    lookup throw. *)
Definition labels_for (d : Document) (label_id : string) : completion (list node) :=
  if css_escape d then
    Normal (querySelectorAll d (doc_children d) [[SType "label"; SAttrEq "for" label_id]])
  else Throw (ReferenceError "CSS is not defined").

(** The [try] block of the [id] branch: [Normal (Some label)] is its
    [return label], [Normal None] falls out of the block. *)
Definition for_label_text (d : Document) (label_id : string)
  : completion (option string) :=
  labels ← labels_for d label_id;
  let label := foldl (λ label l, label +:+ innerText (element d l) +:+ " ") "" labels in
  let label := Str.trim label in
  Normal (if negb (Str.eqb label "") then Some label else None).

Definition span_label : Selector := [[SType "span"; SClass "label"]].

Definition getApproximateAriaName (d : Document) (n : node) : string :=
  match getAttribute d n "aria-label" with
  | Some v => v
  | None =>
  match querySelector d n span_label with
  | Some span => innerText (element d span)
  | None =>
  match getAttribute d n "aria-labelledby" with
  | Some v => labelledby_text d v
  | None =>
  match getAttribute d n "aria-label" with
  | Some v => v
  | None =>
  match
    match getAttribute d n "id" with
    | Some label_id =>
        try_catch (for_label_text d label_id) (λ e, Normal None)
    | None => Normal None
    end
  with
  | Normal (Some label) => label
  | _ =>
  match getAttribute d n "name" with
  | Some v => v
  | None =>
  match
    match parentElement d n with
    | Some parent =>
        if Str.eqb (tagName (element d parent)) "LABEL" then Some parent else None
    | None => None
    end
  with
  | Some parent => innerText (element d parent)
  | None =>
  match getAttribute d n "alt" with
  | Some v => v
  | None =>
  match getAttribute d n "title" with
  | Some v => v
  | None => trimmedInnerText d n
  end end end end end end end end end.

(** ** Snapshot assembler *)

(** A JavaScript object used as a map from keys to values, in insertion
    order: assigning to an existing key keeps its place. *)
Module Obj.

Definition t (V : Type) : Type := list (string * V).

Fixpoint set_own {V} (k : string) (v : V) (o : t V) : t V :=
  match o with
  | [] => [(k, v)]
  | (k', v') :: o' =>
      if decide (k' = k) then (k, v) :: o' else (k', v') :: set_own k v o'
  end.

(** [o[k] = v].  Assigning to ["__proto__"] reaches the accessor of
    [Object.prototype] and creates no own property. *)
Definition set {V} (k : string) (v : V) (o : t V) : t V :=
  if decide (k = "__proto__") then o else set_own k v o.

Fixpoint get {V} (k : string) (o : t V) : option V :=
  match o with
  | [] => None
  | (k', v') :: o' => if decide (k' = k) then Some v' else get k o'
  end.

Definition digit (c : ascii) : option N :=
  let n := N_of_ascii c in
  if (48 <=? n)%N && (n <=? 57)%N then Some (n - 48)%N else None.

Fixpoint number_go (acc : N) (s : string) : option N :=
  match s with
  | EmptyString => Some acc
  | String c s' =>
      match digit c with
      | Some k => number_go (acc * 10 + k)%N s'
      | None => None
      end
  end.

(** The array index a key denotes, if it is the canonical decimal form
    of an integer below [2^32 - 1]. *)
Definition index (k : string) : option N :=
  match k with
  | EmptyString => None
  | _ =>
      match number_go 0 k with
      | Some n =>
          if (n <? 4294967295)%N && bool_decide (pretty n = k) then Some n
          else None
      | None => None
      end
  end.

(** Insertion of an indexed entry into a list sorted by index. *)
Fixpoint insert_sorted {V} (x : N * (string * V)) (l : list (N * (string * V)))
  : list (N * (string * V)) :=
  match l with
  | [] => [x]
  | y :: l' => if (x.1 <=? y.1)%N then x :: l else y :: insert_sorted x l'
  end.

(** Enumeration order of [for (k in o)]: array indices ascending, then
    the other keys in insertion order. *)
Definition entries {V} (o : t V) : list (string * V) :=
  let indexed := omap (λ kv, (λ i, (i, kv)) <$> index kv.1) o in
  let others := filter (λ kv, index kv.1 = None) o in
  (snd <$> foldr insert_sorted [] indexed) ++ others.

End Obj.

Record InteractiveRecord := {
  tag_name : string;
  role : string;
  aria_name : string;
  v_scrollable : bool;
  rects : list DOMRect
}.

(** The value of the local variable [rects] of [getInteractiveRects].  A
    DOMRect has no [length] property and is not iterable; a DOMRectList
    has both. *)
Inductive RectsValue : Type :=
| OfDOMRect (r : DOMRect)
| OfDOMRectList (l : list DOMRect).

(** [rects.length], with [None] for [undefined] *)
Definition rects_length (v : RectsValue) : option nat :=
  match v with
  | OfDOMRect _ => None
  | OfDOMRectList l => Some (length l)
  end.

(** [len > 0]; [undefined > 0] is false *)
Definition gt_zero (len : option nat) : bool :=
  match len with
  | Some k => negb (Nat.eqb k 0)
  | None => false
  end.

(** [for (const rect of rects)] *)
Definition rects_iterate (v : RectsValue) : completion (list DOMRect) :=
  match v with
  | OfDOMRectList l => Normal l
  | OfDOMRect _ => Throw (TypeError "rects is not iterable")
  end.

(** [JSON.parse(JSON.stringify(rects))] in the [else] branch: the plain
    copy of the value held by [rects]. *)
Definition rects_copy (v : RectsValue) : list DOMRect :=
  match v with
  | OfDOMRect r => [r]
  | OfDOMRectList l => l
  end.

Definition select_selector : Selector := [[SType "select"]].

(** The test [select_focused || option_visible || select_expanded] made
    for an [option] element. *)
Definition select_focused (d : Document) (n : node) : bool :=
  match closest d n select_selector with
  | Some select =>
      hasAttribute d select "__elementId"
      && bool_decide (getFocusedElementId d = getAttribute d select "__elementId")
  | None => false
  end.

Definition option_visible (d : Document) (n : node) : bool := isVisible d n.

Definition select_expanded (d : Document) (n : node) : bool :=
  match closest d n select_selector with
  | Some select => hasAttribute d select "open"
  | None => false
  end.

(** [elements[i].getAttribute("__elementId")] used as a property key:
    [null] becomes the key ["null"]. *)
Definition key_of (d : Document) (n : node) : string :=
  default "null" (getAttribute d n "__elementId").

(** One iteration of the loop of [getInteractiveRects]: [None] is
    [continue], [Some (key, record)] the assignment [results[key] = record]. *)
Definition rects_step (d : Document) (n : node)
  : completion (option (string * InteractiveRecord)) :=
  let key := key_of d n in
  let rects := OfDOMRect (boundingClientRect (element d n)) in
  if Str.eqb (tag d n) "option"
     && negb (select_focused d n || option_visible d n || select_expanded d n)
  then Normal None
  else
    let ariaRole := getApproximateAriaRole d n in
    let ariaName := getApproximateAriaName d n in
    let vScrollable := (1 <=? scrollHeight (element d n) - clientHeight (element d n))%Z in
    kept ←
      (if gt_zero (rects_length rects) then
         l ← rects_iterate rects;
         Normal (filter (λ rect, let '(x, y) := center rect in
                                 isTopmost d n x y = true) l)
       else Normal (rects_copy rects));
    Normal (Some (key, {| tag_name := ariaRole.2; role := ariaRole.1;
                          aria_name := ariaName; v_scrollable := vScrollable;
                          rects := kept |})).

(** The assignments [results[key] = record] made by the loop, in order,
    each with the element it was made for. *)
Fixpoint rects_loop (d : Document) (elements : list node)
  : completion (list (node * (string * InteractiveRecord))) :=
  match elements with
  | [] => Normal []
  | n :: elements' =>
      r ← rects_step d n;
      rest ← rects_loop d elements';
      Normal (match r with Some kv => (n, kv) :: rest | None => rest end)
  end.

Definition getInteractiveRects_trace (p : Page)
  : completion (list (node * (string * InteractiveRecord))) * Page :=
  match getInteractiveElements (document p) with
  | Throw e => (Throw e, p)
  | Normal elements0 =>
      let '(elements, p') := labelElements elements0 p in
      (elements ← elements; rects_loop (document p') elements, p')
  end.

Definition results_of (trace : list (node * (string * InteractiveRecord)))
  : Obj.t InteractiveRecord :=
  foldl (λ results e, Obj.set e.2.1 e.2.2 results) [] trace.

Definition getInteractiveRects (p : Page)
  : completion (Obj.t InteractiveRecord) * Page :=
  let '(trace, p') := getInteractiveRects_trace p in
  (results_of <$> trace, p').

(** [object.hasOwnProperty(key)], where [name] is the variable that holds
    the object: an own property called [hasOwnProperty] hides the method
    of [Object.prototype], and what the script stores under a key (a
    record, the content of a meta tag) is never a function, so the call
    is a [TypeError].  The text of its message is the engine's. *)
Definition hasOwnProperty {V} (name : string) (o : Obj.t V) (key : string)
  : completion bool :=
  match Obj.get "hasOwnProperty" o with
  | Some _ => Throw (TypeError (name +:+ ".hasOwnProperty is not a function"))
  | None => Normal (bool_decide (is_Some (Obj.get key o)))
  end.

(** The body of the [for (const id in rects)] loop of the exported
    function: the test [rects.hasOwnProperty(id)] and the [push] of the
    item made of [id] and the fields of [rects[id]]. *)
Definition array_step (rects : Obj.t InteractiveRecord)
    (result : list (string * InteractiveRecord)) (id : string)
  : completion (list (string * InteractiveRecord)) :=
  own ← hasOwnProperty "rects" rects id;
  Normal (if own : bool then
            match Obj.get id rects with
            | Some record => push result (id, record)
            | None => result
            end
          else result).

(** The array form, exported as [getInteractiveElements].  The loop
    visits the own keys of [rects]; the keys [rects] inherits after an
    assignment to ["__proto__"] fail the test and add nothing.  Whatever
    is thrown inside the [try] is caught. *)
Definition getInteractiveElementsArray (p : Page)
  : completion (list (string * InteractiveRecord)) * Page :=
  let '(rects, p') := getInteractiveRects p in
  (try_catch (rects ← rects; foldlM (array_step rects) [] (Obj.entries rects).*1)
             (λ error, Normal []),
   p').

(** ** The name cascade as a list of strategies *)

(** The text of the [label] elements whose [for] is the element's [id];
    a failed lookup counts as no label. *)
Definition for_label (d : Document) (n : node) : option string :=
  match getAttribute d n "id" with
  | Some label_id =>
      match try_catch (for_label_text d label_id) (λ e, Normal None) with
      | Normal r => r
      | Throw _ => None
      end
  | None => None
  end.

Definition parent_label (d : Document) (n : node) : option node :=
  match parentElement d n with
  | Some parent =>
      if Str.eqb (tagName (element d parent)) "LABEL" then Some parent else None
  | None => None
  end.

(** The nine strategies that precede the element's own text, in the order
    of the cascade.  A strategy is [Some text] when it applies. *)
Definition cascade (d : Document) (n : node) : list (option string) :=
  [ getAttribute d n "aria-label";
    (λ span, innerText (element d span)) <$> querySelector d n span_label;
    labelledby_text d <$> getAttribute d n "aria-labelledby";
    getAttribute d n "aria-label";
    for_label d n;
    getAttribute d n "name";
    (λ parent, innerText (element d parent)) <$> parent_label d n;
    getAttribute d n "alt";
    getAttribute d n "title" ].

Fixpoint first_applicable (strategies : list (option string)) : option string :=
  match strategies with
  | [] => None
  | Some text :: _ => Some text
  | None :: rest => first_applicable rest
  end.

(** The reading under which the resolver would skip empty results: the
    text every strategy yields (the empty string when it yields nothing),
    and the first of them that is not empty. *)
Definition cascade_texts (d : Document) (n : node) : list string :=
  (default "" <$> cascade d n) ++ [trimmedInnerText d n].

Definition first_nonempty (texts : list string) : string :=
  default "" (head (filter (λ s, s ≠ "") texts)).

(** [getApproximateAriaName] without its second [aria-label] check. *)
Definition getApproximateAriaName_single_check (d : Document) (n : node) : string :=
  match getAttribute d n "aria-label" with
  | Some v => v
  | None =>
  match querySelector d n span_label with
  | Some span => innerText (element d span)
  | None =>
  match getAttribute d n "aria-labelledby" with
  | Some v => labelledby_text d v
  | None =>
  match
    match getAttribute d n "id" with
    | Some label_id =>
        try_catch (for_label_text d label_id) (λ e, Normal None)
    | None => Normal None
    end
  with
  | Normal (Some label) => label
  | _ =>
  match getAttribute d n "name" with
  | Some v => v
  | None =>
  match
    match parentElement d n with
    | Some parent =>
        if Str.eqb (tagName (element d parent)) "LABEL" then Some parent else None
    | None => None
    end
  with
  | Some parent => innerText (element d parent)
  | None =>
  match getAttribute d n "alt" with
  | Some v => v
  | None =>
  match getAttribute d n "title" with
  | Some v => v
  | None => trimmedInnerText d n
  end end end end end end end end.

(** The rectangles the record of an element is specified to hold: its
    client rectangles at whose center the element is topmost. *)
Definition unoccluded_rects (d : Document) (n : node) : list DOMRect :=
  filter (λ rect, let '(x, y) := center rect in isTopmost d n x y = true)
         (clientRects (element d n)).

(** ** Sample pages *)

Module Sample.

Definition box (l t w h : Z) : DOMRect :=
  {| r_left := inject_Z l; r_top := inject_Z t;
     r_width := inject_Z w; r_height := inject_Z h |}.

(** An element without a layout box *)
Definition hidden (tg : string) (attrs : list (string * string)) : Element :=
  {| tagName := tg; attributes := list_to_map attrs; disabled := false;
     offsetWidth := 0; offsetHeight := 0; clientRects := [];
     boundingClientRect := box 0 0 0 0; cursor := "auto"; innerText := "";
     scrollHeight := 0; clientHeight := 0 |}.

(** An element laid out as the single box [r] *)
Definition shown (tg : string) (attrs : list (string * string)) (r : DOMRect)
    (text : string) : Element :=
  {| tagName := tg; attributes := list_to_map attrs; disabled := false;
     offsetWidth := 10; offsetHeight := 10; clientRects := [r];
     boundingClientRect := r; cursor := "auto"; innerText := text;
     scrollHeight := 10; clientHeight := 10 |}.

Definition page (body : list Tree) (elements : node → Element)
    (active : option node) (hit : Q → Q → option node) : Document :=
  {| doc_children := [Elem 0 [Elem 1 body None] None];
     element := λ n, match n with
                     | 0 => shown "HTML" [] (box 0 0 800 600) ""
                     | 1 => shown "BODY" [] (box 0 0 800 600) ""
                     | _ => elements n
                     end;
     activeElement := active;
     elementFromPoint := hit;
     css_escape := true |}.

(** A button (2) wholly covered by an overlay (3). *)
Definition covered_button : Document :=
  page [Elem 2 [Text "Save"] None; Elem 3 [] None]
       (λ n, match n with
             | 2 => shown "BUTTON" [] (box 10 10 80 20) "Save"
             | _ => shown "DIV" [] (box 0 0 800 600) ""
             end)
       (Some 1) (λ _ _, Some 3).

(** A button (2) with an empty [aria-label] and a [title]. *)
Definition empty_label_button : Document :=
  page [Elem 2 [Text "x"] None]
       (λ n, shown "BUTTON" [("aria-label", ""); ("title", "Save")]
                   (box 10 10 80 20) "x")
       (Some 1) (λ _ _, Some 2).

(** A file input (2) that is styled away. *)
Definition hidden_file_input : Document :=
  page [Elem 2 [] None]
       (λ n, hidden "INPUT" [("type", "file")])
       (Some 1) (λ _ _, Some 1).

End Sample.

(** ** Documents that differ in identifier stamps only *)

Definition label_attr : string := "__elementId".

Definition same_but_label (e e' : Element) : Prop :=
  tagName e' = tagName e ∧ disabled e' = disabled e
  ∧ offsetWidth e' = offsetWidth e ∧ offsetHeight e' = offsetHeight e
  ∧ clientRects e' = clientRects e
  ∧ boundingClientRect e' = boundingClientRect e
  ∧ cursor e' = cursor e ∧ innerText e' = innerText e
  ∧ scrollHeight e' = scrollHeight e ∧ clientHeight e' = clientHeight e
  ∧ ∀ a, a ≠ label_attr → attributes e' !! a = attributes e !! a.

Definition same_but_labels (d d' : Document) : Prop :=
  doc_children d' = doc_children d
  ∧ activeElement d' = activeElement d
  ∧ (∀ x y, elementFromPoint d' x y = elementFromPoint d x y)
  ∧ css_escape d' = css_escape d
  ∧ ∀ n, same_but_label (element d n) (element d' n).

(** Whether a selector tests the attribute [a]. *)
Fixpoint simple_reads (a : string) (s : Simple) : bool :=
  match s with
  | SType _ => false
  | SAttr b | SAttrEq b _ => Str.eqb a b
  | SClass _ => Str.eqb a "class"
  | SNot s' => simple_reads a s'
  end.

Definition selector_reads (a : string) (sel : Selector) : bool :=
  existsb (existsb (simple_reads a)) sel.

(** ** The elements skipped by the visibility checks *)

Definition is_file_input (d : Document) (n : node) : bool :=
  Str.eqb (tag d n) "input" && bool_decide (getAttribute d n "type" = Some "file").

Definition is_option (d : Document) (n : node) : bool :=
  Str.eqb (tag d n) "option".

(** ** Scopes the tree walker reaches *)

(** The scopes of [roots], and every open shadow tree attached to an
    element of a reached scope. *)
Inductive reachable_from (roots : list (list Tree)) : list Tree → Prop :=
| reach_root scope : scope ∈ roots → reachable_from roots scope
| reach_shadow scope scope' :
    reachable_from roots scope → scope' ∈ open_roots scope →
    reachable_from roots scope'.

Definition reachable (d : Document) : list Tree → Prop :=
  reachable_from [doc_children d].

Definition stack_weight (stack : list (list Tree)) : nat :=
  list_sum (map scope_weight stack).




Module Sample2.
Import Sample.

(** A [select] (3) with a laid-out [option] (4) inside the closed
    shadow tree of a host element (2). *)
Definition closed_shadow_select : Document :=
  page [Elem 2 [] (Some (Closed, [Elem 3 [Elem 4 [Text "A"] None] None]))]
       (λ n, match n with
             | 2 => shown "DIV" [] (box 10 10 80 20) ""
             | 3 => shown "SELECT" [] (box 10 10 80 20) "A"
             | _ => shown "OPTION" [] (box 10 10 80 20) "A"
             end)
       (Some 1) (λ _ _, Some 2).

(** A closed [select] (2) with three [option] children (3, 4, 5) that
    have no layout box of their own; [active] is the focused element. *)
Definition three_options (active : node) : Document :=
  page [Elem 2 [Elem 3 [Text "A"] None; Elem 4 [Text "B"] None;
                Elem 5 [Text "C"] None] None]
       (λ n, match n with
             | 2 => shown "SELECT" [] (box 10 10 80 20) "A"
             | _ => hidden "OPTION" []
             end)
       (Some active) (λ _ _, Some 2).

(** A collapsed button (2) next to a laid-out one (3). *)
Definition collapsed_button : Document :=
  page [Elem 2 [Text "Old"] None; Elem 3 [Text "New"] None]
       (λ n, match n with
             | 2 => hidden "BUTTON" [("role", "button")]
             | _ => shown "BUTTON" [] (box 10 10 80 20) "New"
             end)
       (Some 1) (λ _ _, Some 3).

End Sample2.


(** ** Page lifetime *)

(** The assignments that one run of the loop of [labelElements] makes,
    oldest first: the element and the number written to it. *)
Fixpoint label_log (elements : list node) (p : Page) : list (node * N) :=
  match elements with
  | [] => []
  | n :: elements' =>
      (if hasAttribute (document p) n "__elementId" then []
       else [(n, nextLabel p)])
      ++ label_log elements' (label_step p n)
  end.

(** What happens to a page between the evaluation of the script and the
    unloading of the page: calls of [labelElements], on any array of
    elements, and changes of the document by anything else (the scripts
    of the page, the user, the network).  The closure variable
    [nextLabel] is out of reach of everything but [labelElements]. *)
Inductive Event : Type :=
| Label (elements : list node)
| Mutate (change : Document → Document).

(** The state carries the log of all assignments so far. *)
Definition run_event (st : Page * list (node * N)) (e : Event)
  : Page * list (node * N) :=
  match e with
  | Label elements =>
      (label_loop elements st.1, st.2 ++ label_log elements st.1)
  | Mutate change =>
      ({| document := change (document st.1); nextLabel := nextLabel st.1 |},
       st.2)
  end.

Definition lifetime (d : Document) (events : list Event)
  : Page * list (node * N) :=
  foldl run_event (load d, []) events.

(** The event leaves a stamp of the element [n] in place: the element
    object persists and nothing but the labeler touches its
    [__elementId]. *)
Definition keeps_stamp (n : node) (e : Event) : Prop :=
  match e with
  | Label _ => True
  | Mutate change =>
      ∀ d v, getAttribute d n "__elementId" = Some v →
             getAttribute (change d) n "__elementId" = Some v
  end.

(** The numbers [lo], [lo + 1], [lo + 2], ... *)
Fixpoint consecutive_from (lo : N) (l : list N) : Prop :=
  match l with
  | [] => True
  | i :: l' => i = lo ∧ consecutive_from (N.succ lo) l'
  end.

(** The tree without the subtree of the element [n] below its root. *)
Fixpoint remove_node (n : node) (t : Tree) : Tree :=
  match t with
  | Text s => Text s
  | Elem m kids sh =>
      let fix go (ts : list Tree) : list Tree :=
        match ts with
        | [] => []
        | Text s :: ts' => Text s :: go ts'
        | (Elem m' _ _ as k) :: ts' =>
            if decide (m' = n) then go ts' else remove_node n k :: go ts'
        end in
      Elem m (go kids) sh
  end.

Definition removeChild (n : node) (d : Document) : Document :=
  {| doc_children := map (remove_node n) (doc_children d);
     element := element d;
     activeElement := activeElement d;
     elementFromPoint := elementFromPoint d;
     css_escape := css_escape d |}.

(** ** Text of the tree *)

(** [node.textContent]: the data of the text nodes of the subtree, in
    tree order.  Shadow trees are not part of it. *)
Fixpoint textContent (t : Tree) : string :=
  match t with
  | Text data => data
  | Elem _ kids _ =>
      let fix go (ts : list Tree) : string :=
        match ts with
        | [] => ""
        | k :: ts' => textContent k +:+ go ts'
        end in
      go kids
  end.

(** The element descendants of a node as subtrees, the node first. *)
Fixpoint subtrees (t : Tree) : list Tree :=
  match t with
  | Text _ => []
  | Elem _ kids _ => t :: flat_map subtrees kids
  end.

Definition root_matches (d : Document) (sel : Selector) (t : Tree) : bool :=
  match t with
  | Elem n _ _ => matches (element d n) sel
  | Text _ => false
  end.

(** [querySelectorAll] returning the matched elements with their
    subtrees. *)
Definition querySelectorAll_trees (d : Document) (scope : list Tree)
    (sel : Selector) : list Tree :=
  List.filter (root_matches d sel) (flat_map subtrees scope).

Definition nl : string := String (ascii_of_nat 10) "".
Definition tab : ascii := ascii_of_nat 9.

Definition nonempty (s : string) : bool := negb (Str.eqb s "").

(** ** Markdown renderer *)

(** [document.documentElement]: the first element child of the
    document. *)
Definition documentElement (d : Document) : option Tree :=
  List.find (λ t, match t with Elem _ _ _ => true | Text _ => false end)
            (doc_children d).

(** [document.body]: the first [body] or [frameset] child of the [html]
    document element; [null] is [None]. *)
Definition body (d : Document) : option Tree :=
  match documentElement d with
  | Some (Elem h kids _) =>
      if Str.eqb (tag d h) "html" then
        List.find (root_matches d [[SType "body"]; [SType "frameset"]]) kids
      else None
  | _ => None
  end.

Definition stripped : Selector :=
  [[SType "script"]; [SType "style"]; [SType "nav"]; [SType "footer"];
   [SType "aside"]].

(** [content = node.cloneNode(true)] followed by the removal of every
    descendant that matches [script, style, nav, footer, aside].  The
    copy has the tag names, attributes and text of the original and no
    shadow trees; its elements are looked up under the numbers of their
    originals. *)
Fixpoint strip (d : Document) (t : Tree) : Tree :=
  match t with
  | Text data => Text data
  | Elem n kids _ =>
      let fix go (ts : list Tree) : list Tree :=
        match ts with
        | [] => []
        | k :: ts' =>
            if root_matches d stripped k then go ts' else strip d k :: go ts'
        end in
      Elem n (go kids) None
  end.

(** [text ? pre + text + post : ''] *)
Definition wrap (pre text post : string) : string :=
  if nonempty text then pre +:+ text +:+ post else "".

(** The lines of an [ul] or [ol]: [i] counts every [li], with or
    without text. *)
Fixpoint list_lines (ordered : bool) (i : N) (items : list Tree) : string :=
  match items with
  | [] => ""
  | li :: items' =>
      let prefix := if ordered then pretty (i + 1)%N +:+ ". " else "- " in
      let liText := Str.trim (textContent li) in
      (if nonempty liText then prefix +:+ liText +:+ nl else "")
      +:+ list_lines ordered (N.succ i) items'
  end.

(** [null] is [None]. *)
Definition processElement (d : Document) (n : node) (kids : list Tree)
  : option string :=
  if negb (nonempty (tagName (element d n))) then Some ""
  else
    let name := tag d n in
    let text := Str.trim (textContent (Elem n kids None)) in
    let tag_is := Str.eqb name in
    if tag_is "h1" then Some (wrap "# " text (nl +:+ nl))
    else if tag_is "h2" then Some (wrap "## " text (nl +:+ nl))
    else if tag_is "h3" then Some (wrap "### " text (nl +:+ nl))
    else if tag_is "h4" then Some (wrap "#### " text (nl +:+ nl))
    else if tag_is "h5" then Some (wrap "##### " text (nl +:+ nl))
    else if tag_is "h6" then Some (wrap "###### " text (nl +:+ nl))
    else if tag_is "p" then Some (wrap "" text (nl +:+ nl))
    else if tag_is "a" then
      match getAttribute d n "href" with
      | Some href =>
          Some (if nonempty href && nonempty text
                then "[" +:+ text +:+ "](" +:+ href +:+ ")" else text)
      | None => Some text
      end
    else if tag_is "strong" || tag_is "b" then Some (wrap "**" text "**")
    else if tag_is "em" || tag_is "i" then Some (wrap "*" text "*")
    else if tag_is "code" then Some (wrap "`" text "`")
    else if tag_is "pre" then
      Some (wrap ("```" +:+ nl) text (nl +:+ "```" +:+ nl +:+ nl))
    else if tag_is "ul" || tag_is "ol" then
      let listElements := querySelectorAll_trees d kids [[SType "li"]] in
      let listItems := list_lines (tag_is "ol") 0 listElements in
      Some (if nonempty listItems then listItems +:+ nl else "")
    else if tag_is "blockquote" then Some (wrap "> " text (nl +:+ nl))
    else if tag_is "br" then Some nl
    else if tag_is "hr" then Some ("---" +:+ nl +:+ nl)
    else None.

Definition blockElements : list string :=
  ["div"; "p"; "section"; "article"; "header"; "main"].

Definition ends_line (markdown : string) : bool :=
  Str.endsWith markdown (ascii_of_nat 10).

(** The text-node branch of [walkNodes]. *)
Definition walk_text (data markdown : string) : string :=
  let text := Str.trim data in
  if nonempty text then
    (if nonempty markdown && negb (Str.endsWith markdown " ")
        && negb (ends_line markdown)
     then markdown +:+ " " else markdown) +:+ text
  else markdown.

(** The texts of the errors the engine raises by itself differ between
    engines, and [getPageMarkdown] returns them inside its diagnostic. *)
Record Messages := {
  null_read : string;  (* reading [cloneNode] of [null] *)
  overflow : string    (* no room left on the call stack *)
}.

Definition stack_overflow (m : Messages) : JsError := RangeError (overflow m).

(** [walkNodes(node)], with the variable [markdown] it appends to passed
    through.  [stack] is the number of nested activations of [walkNodes]
    the host has room for; a call beyond it throws. *)
Fixpoint walkNodes (d : Document) (m : Messages) (stack : nat) (t : Tree)
    (markdown : string) : completion string :=
  match stack with
  | 0 => Throw (stack_overflow m)
  | S stack' =>
      match t with
      | Text data => Normal (walk_text data markdown)
      | Elem n kids _ =>
          match processElement d n kids with
          | Some processed => Normal (markdown +:+ processed)
          | None =>
              markdown ← foldlM (λ md k, walkNodes d m stack' k md) markdown kids;
              Normal (if bool_decide (tag d n ∈ blockElements)
                         && nonempty markdown && negb (ends_line markdown)
                      then markdown +:+ nl else markdown)
          end
      end
  end.

(** [s.replace(/[ \t]+/g, ' ')] *)
Fixpoint collapse_blanks_go (in_run : bool) (s : string) : string :=
  match s with
  | EmptyString => EmptyString
  | String c s' =>
      if Ascii.eqb c " " || Ascii.eqb c tab then
        if in_run then collapse_blanks_go true s'
        else String " " (collapse_blanks_go true s')
      else String c (collapse_blanks_go false s')
  end.
Definition collapse_blanks : string → string := collapse_blanks_go false.

(** [s.replace(/\n{3,}/g, '\n\n')]; [run] line feeds precede [s]. *)
Fixpoint collapse_newlines_go (run : nat) (s : string) : string :=
  match s with
  | EmptyString => EmptyString
  | String c s' =>
      if Ascii.eqb c (ascii_of_nat 10) then
        if Nat.ltb run 2 then String c (collapse_newlines_go (S run) s')
        else collapse_newlines_go (S run) s'
      else String c (collapse_newlines_go 0 s')
  end.
Definition collapse_newlines : string → string := collapse_newlines_go 0.

Definition no_body (m : Messages) : JsError := TypeError (null_read m).

(** The block of the [try] statement. *)
Definition getPageMarkdown_try (m : Messages) (stack : nat) (d : Document)
  : completion string :=
  match body d with
  | None => Throw (no_body m)
  | Some b =>
      let content := strip d b in
      markdown ← walkNodes d m stack content "";
      let markdown :=
        Str.trim (collapse_newlines (collapse_blanks markdown)) in
      Normal (if nonempty markdown then markdown else "No content found")
  end.

Definition getPageMarkdown (m : Messages) (stack : nat) (d : Document)
  : completion string :=
  try_catch (getPageMarkdown_try m stack d)
    (λ error, Normal ("Error extracting page content: " +:+ message error)).

(** The nesting of elements and text nodes below and including [t]. *)
Fixpoint height (t : Tree) : nat :=
  match t with
  | Text _ => 1
  | Elem _ kids _ => S (foldr (λ k h, Nat.max (height k) h) 0 kids)
  end.

(** ** JSON texts *)

(** The value [JSON.parse] returns, as the tree of the text: numbers and
    strings are kept as written (a string without its quotes, escapes
    not decoded), the members of an object in the order of the text. *)
Inductive Json : Type :=
| JNull
| JBool (b : bool)
| JNumber (lexeme : string)
| JString (chars : string)
| JArray (items : list Json)
| JObject (members : list (string * Json)).

Module JSON.

Definition quote : ascii := ascii_of_nat 34.
Definition backslash : ascii := ascii_of_nat 92.

(** JSON white space: tab, line feed, carriage return, space. *)
Definition is_ws (c : ascii) : bool :=
  let n := nat_of_ascii c in
  Nat.eqb n 9 || Nat.eqb n 10 || Nat.eqb n 13 || Nat.eqb n 32.

Fixpoint skip_ws (s : string) : string :=
  match s with
  | String c s' => if is_ws c then skip_ws s' else s
  | EmptyString => EmptyString
  end.

Fixpoint strip_prefix (p s : string) : option string :=
  match p, s with
  | EmptyString, _ => Some s
  | String a p', String b s' => if Ascii.eqb a b then strip_prefix p' s' else None
  | String _ _, EmptyString => None
  end.

Definition is_digit (c : ascii) : bool :=
  let n := nat_of_ascii c in Nat.leb 48 n && Nat.leb n 57.

Definition is_hex (c : ascii) : bool :=
  let n := nat_of_ascii c in
  is_digit c || (Nat.leb 65 n && Nat.leb n 70) || (Nat.leb 97 n && Nat.leb n 102).

(** The longest prefix of digits, and the rest. *)
Fixpoint digits (s : string) : string * string :=
  match s with
  | String c s' =>
      if is_digit c then let '(ds, rest) := digits s' in (String c ds, rest)
      else ("", s)
  | EmptyString => ("", "")
  end.

Definition digits1 (s : string) : option (string * string) :=
  let '(ds, rest) := digits s in
  if Str.eqb ds "" then None else Some (ds, rest).

(** A number: an optional minus sign; a zero, or a digit other than
    zero followed by digits; optionally a point and digits; optionally
    an exponent mark, a sign and digits. *)
Definition parse_number (s : string) : option (string * string) :=
  let '(sign, s) :=
    match s with
    | String c s' => if Ascii.eqb c "-" then ("-", s') else ("", s)
    | EmptyString => ("", s)
    end in
  '(int, s) ←
    match s with
    | String c s' =>
        if Ascii.eqb c "0" then Some ("0", s')
        else if is_digit c then
          let '(ds, rest) := digits s' in Some (String c ds, rest)
        else None
    | EmptyString => None
    end;
  '(frac, s) ←
    match s with
    | String c s' =>
        if Ascii.eqb c "." then
          '(ds, rest) ← digits1 s'; Some ("." +:+ ds, rest)
        else Some ("", s)
    | EmptyString => Some ("", s)
    end;
  '(exp, s) ←
    match s with
    | String c s' =>
        if Ascii.eqb c "e" || Ascii.eqb c "E" then
          let '(esign, s'') :=
            match s' with
            | String c' r =>
                if Ascii.eqb c' "+" || Ascii.eqb c' "-"
                then (String c' "", r) else ("", s')
            | EmptyString => ("", s')
            end in
          '(ds, rest) ← digits1 s''; Some (String c esign +:+ ds, rest)
        else Some ("", s)
    | EmptyString => Some ("", s)
    end;
  Some (sign +:+ int +:+ frac +:+ exp, s).

(** The characters of a string up to its closing quote, and the text
    after that quote. *)
Fixpoint parse_chars (s : string) : option (string * string) :=
  match s with
  | EmptyString => None
  | String c r =>
      if Ascii.eqb c quote then Some ("", r)
      else if Ascii.eqb c backslash then
        match r with
        | String e r' =>
            if existsb (Ascii.eqb e)
                 [quote; backslash; "/"; "b"; "f"; "n"; "r"; "t"]%char
            then '(cs, rest) ← parse_chars r'; Some (String c (String e cs), rest)
            else if Ascii.eqb e "u" then
              match r' with
              | String h1 (String h2 (String h3 (String h4 r''))) =>
                  if is_hex h1 && is_hex h2 && is_hex h3 && is_hex h4 then
                    '(cs, rest) ← parse_chars r'';
                    Some (String c (String e (String h1 (String h2
                            (String h3 (String h4 cs))))), rest)
                  else None
              | _ => None
              end
            else None
        | EmptyString => None
        end
      else if Nat.ltb (nat_of_ascii c) 32 then None
      else '(cs, rest) ← parse_chars r; Some (String c cs, rest)
  end.

(** A value at the head of [s], and the text after it.  Every call
    takes one unit of [fuel]. *)
Fixpoint parse_value (fuel : nat) (s : string) : option (Json * string) :=
  match fuel with
  | 0 => None
  | S fuel' =>
      match s with
      | EmptyString => None
      | String c r =>
          if Ascii.eqb c "n" then rest ← strip_prefix "null" s; Some (JNull, rest)
          else if Ascii.eqb c "t" then
            rest ← strip_prefix "true" s; Some (JBool true, rest)
          else if Ascii.eqb c "f" then
            rest ← strip_prefix "false" s; Some (JBool false, rest)
          else if Ascii.eqb c quote then
            '(cs, rest) ← parse_chars r; Some (JString cs, rest)
          else if Ascii.eqb c "[" then
            match skip_ws r with
            | String c' rest =>
                if Ascii.eqb c' "]" then Some (JArray [], rest)
                else '(items, rest') ← parse_elements fuel' (skip_ws r);
                     Some (JArray items, rest')
            | EmptyString => None
            end
          else if Ascii.eqb c "{" then
            match skip_ws r with
            | String c' rest =>
                if Ascii.eqb c' "}" then Some (JObject [], rest)
                else '(members, rest') ← parse_members fuel' (skip_ws r);
                     Some (JObject members, rest')
            | EmptyString => None
            end
          else '(lexeme, rest) ← parse_number s; Some (JNumber lexeme, rest)
      end
  end
with parse_elements (fuel : nat) (s : string) : option (list Json * string) :=
  match fuel with
  | 0 => None
  | S fuel' =>
      '(v, r) ← parse_value fuel' s;
      match skip_ws r with
      | String c r' =>
          if Ascii.eqb c "," then
            '(vs, rest) ← parse_elements fuel' (skip_ws r'); Some (v :: vs, rest)
          else if Ascii.eqb c "]" then Some ([v], r')
          else None
      | EmptyString => None
      end
  end
with parse_members (fuel : nat) (s : string)
  : option (list (string * Json) * string) :=
  match fuel with
  | 0 => None
  | S fuel' =>
      match s with
      | String c r =>
          if Ascii.eqb c quote then
            '(key, r) ← parse_chars r;
            match skip_ws r with
            | String c' r' =>
                if Ascii.eqb c' ":" then
                  '(v, r) ← parse_value fuel' (skip_ws r');
                  match skip_ws r with
                  | String c'' r'' =>
                      if Ascii.eqb c'' "," then
                        '(ms, rest) ← parse_members fuel' (skip_ws r'');
                        Some ((key, v) :: ms, rest)
                      else if Ascii.eqb c'' "}" then Some ([(key, v)], r'')
                      else None
                  | EmptyString => None
                  end
                else None
            | EmptyString => None
            end
          else None
      | EmptyString => None
      end
  end.

(** [JSON.parse(text)].  A nested call is made only after a character
    has been read or before a value of at least one character, so twice
    the length of the text bounds the nesting.  The message of the
    [SyntaxError] differs between hosts. *)
Definition parse (text : string) : completion Json :=
  match parse_value (2 * String.length text + 2) (skip_ws text) with
  | Some (v, rest) =>
      if Str.eqb (skip_ws rest) "" then Normal v
      else Throw (SyntaxError "Unexpected non-whitespace character after JSON")
  | None => Throw (SyntaxError "Unexpected token in JSON")
  end.

End JSON.

(** ** Page metadata *)

Definition _getMetaTags_step (d : Document) (results : Obj.t string)
    (m : node) : Obj.t string :=
  let key :=
    if hasAttribute d m "name" then getAttribute d m "name"
    else if hasAttribute d m "property" then getAttribute d m "property"
    else None in
  match key with
  | None => results
  | Some key =>
      match getAttribute d m "content" with
      | Some content => Obj.set key content results
      | None => results
      end
  end.

Definition _getMetaTags (d : Document) : Obj.t string :=
  foldl (_getMetaTags_step d) []
        (querySelectorAll d (doc_children d) [[SType "meta"]]).

Definition jsonld_selector : Selector :=
  [[SType "script"; SAttrEq "type" "application/ld+json"]].

(** The [innerHTML] of a [script] element is the data of its text
    children as written; scripts hold text only. *)
Definition _getJsonLd (d : Document) : list string :=
  (λ script, Str.trim (textContent script))
    <$> querySelectorAll_trees d (doc_children d) jsonld_selector.

(** The [for (let key in metaTags)] loop: whether ["meta_tags"] is set. *)
Fixpoint meta_tags_loop {V} (metaTags : Obj.t V) (keys : list string)
  : completion bool :=
  match keys with
  | [] => Normal false
  | key :: keys' =>
      own ← hasOwnProperty "metaTags" metaTags key;
      if own : bool then Normal true else meta_tags_loop metaTags keys'
  end.

(** The value of the ["jsonld"] field: what [JSON.parse] returned, or the
    array [_getJsonLd] returned. *)
Inductive JsonLd : Type :=
| Parsed (value : Json)
| Unparsed (bodies : list string).

Record Metadata (Item : Type) := {
  jsonld : option JsonLd;
  microdata : option (list Item);
  meta_tags : option (Obj.t string)
}.
Arguments jsonld {Item} _.
Arguments microdata {Item} _.
Arguments meta_tags {Item} _.

Section Microdata.

(** The [information] object that the callback of [forEach] builds for
    one [itemscope] element, through [traverseItem] and [addValue].  It
    is left to the host: it depends on the properties plain objects
    inherit and on reflected properties of elements ([href], [content],
    [src]) that the document model does not carry. *)
Context {Item : Type}.
Variable information : Document → node → completion Item.

Definition _getMicrodata (d : Document) : completion (list Item) :=
  mapM (information d)
       (querySelectorAll d (doc_children d) [[SAttr "itemscope"]]).

(** The [try] statement of [getPageMetadata].  [JSON.parse(jsonld)]
    converts the array to a string first, which joins its elements with
    commas. *)
Definition parse_jsonld (jsonld : list string) : completion JsonLd :=
  try_catch (Parsed <$> JSON.parse (Str.join "," jsonld))
            (λ e, Normal (Unparsed jsonld)).

Definition getPageMetadata (d : Document) : completion (Metadata Item) :=
  let jsonld := _getJsonLd d in
  let metaTags := _getMetaTags d in
  microdata ← _getMicrodata d;
  results_jsonld ←
    (if Nat.ltb 0 (length jsonld) then Some <$> parse_jsonld jsonld
     else Normal None);
  let results_microdata :=
    if Nat.ltb 0 (length microdata) then Some microdata else None in
  has_meta ← meta_tags_loop metaTags (Obj.entries metaTags).*1;
  Normal {| jsonld := results_jsonld;
            microdata := results_microdata;
            meta_tags := if has_meta : bool then Some metaTags else None |}.

End Microdata.

(** ** Sample pages with content and metadata *)

Module Sample3.
Import Sample.

Definition plain (tg : string) (attrs : list (string * string)) : Element :=
  shown tg attrs (box 0 0 100 20) "".

(** An article with a heading, a paragraph, navigation and a list. *)
Definition article : Document :=
  page [Elem 2 [Text "Title"] None;
        Elem 3 [Text "skip"] None;
        Elem 4 [Text " Some "; Elem 5 [Text "bold"] None; Text " text "] None;
        Elem 6 [Elem 7 [Text "one"] None; Elem 8 [] None;
                Elem 9 [Text "three"] None] None;
        Elem 10 [Text "tail"; Elem 11 [Text "link"] None] None]
       (λ n, match n with
             | 2 => plain "H1" []
             | 3 => plain "NAV" []
             | 4 => plain "DIV" []
             | 5 => plain "B" []
             | 6 => plain "OL" []
             | 7 | 8 | 9 => plain "LI" []
             | 10 => plain "SPAN" []
             | _ => plain "A" [("href", "/x")]
             end)
       (Some 1) (λ _ _, Some 1).

(** A document whose root is not an [html] element. *)
Definition drawing : Document :=
  {| doc_children := [Elem 0 [Elem 1 [Text "x"] None] None];
     element := λ n, match n with
                     | 0 => plain "svg" []
                     | _ => plain "text" []
                     end;
     activeElement := None;
     elementFromPoint := λ _ _, None;
     css_escape := true |}.

Definition ld_json : list (string * string) := [("type", "application/ld+json")].

(** The messages of one engine. *)
Definition v8 : Messages :=
  {| null_read := "Cannot read properties of null (reading 'cloneNode')";
     overflow := "Maximum call stack size exceeded" |}.

(** Two JSON-LD scripts, neither of which is a JSON text, that join to
    one. *)
Definition two_fragments : Document :=
  page [Elem 2 [Text "[1"] None; Elem 3 [Text "2]"] None]
       (λ n, plain "SCRIPT" ld_json)
       (Some 1) (λ _ _, Some 1).

(** Two JSON-LD scripts holding a JSON text each. *)
Definition two_texts : Document :=
  page [Elem 2 [Text "[1]"] None; Elem 3 [Text "[2]"] None]
       (λ n, plain "SCRIPT" ld_json)
       (Some 1) (λ _ _, Some 1).

(** One JSON-LD script whose body is not a JSON text, with white space
    around it. *)
Definition padded_invalid : Document :=
  page [Elem 2 [Text " {bad "] None]
       (λ n, plain "SCRIPT" ld_json)
       (Some 1) (λ _ _, Some 1).

(** One JSON-LD script whose body is not a JSON text, and a meta tag
    named as a method of objects. *)
Definition hostile_meta : Document :=
  page [Elem 2 [Text "{bad"] None; Elem 3 [] None]
       (λ n, match n with
             | 2 => plain "SCRIPT" ld_json
             | _ => plain "META" [("name", "hasOwnProperty"); ("content", "x")]
             end)
       (Some 1) (λ _ _, Some 1).

End Sample3.

(** ** Cursors inherited from the document element *)

(** The element passes the checks of the third loop of
    [getInteractiveElementsNoShaddow] and every ancestor shares its
    cursor, so that the climb arrives at the Document node. *)
Definition cursor_reaches_document (d : Document) (n : node) : bool :=
  negb (disabled (element d n) || negb (isVisible d n))
  && negb (bool_decide (getCursor d n ∈ inertCursors))
  && forallb (λ a, Str.eqb (getCursor d a) (getCursor d n)) (ancestors d n).

Module Sample4.
Import Sample.

Definition pointer (tg : string) : Element :=
  {| tagName := tg; attributes := ∅; disabled := false;
     offsetWidth := 10; offsetHeight := 10; clientRects := [box 0 0 10 10];
     boundingClientRect := box 0 0 10 10; cursor := "pointer";
     innerText := "Go"; scrollHeight := 10; clientHeight := 10 |}.

(** A page styled with [html { cursor: pointer }]: the cursor is
    inherited by every element. *)
Definition pointer_page : Document :=
  {| doc_children := [Elem 0 [Elem 1 [Elem 2 [Text "Go"] None] None] None];
     element := λ n, match n with
                     | 0 => pointer "HTML"
                     | 1 => pointer "BODY"
                     | _ => pointer "BUTTON"
                     end;
     activeElement := Some 1;
     elementFromPoint := λ _ _, Some 2;
     css_escape := true |}.

End Sample4.

(** ** Shape of rendered trees and strings *)

(** The element descendants of a node, as subtrees. *)
Definition descendants (t : Tree) : list Tree :=
  match t with
  | Text _ => []
  | Elem _ kids _ => flat_map subtrees kids
  end.

Fixpoint contains (c : ascii) (s : string) : bool :=
  match s with
  | EmptyString => false
  | String a s' => Ascii.eqb a c || contains c s'
  end.

(** The key a [meta] element contributes under: its [name], or else its
    [property]. *)
Definition meta_key (d : Document) (m : node) : option string :=
  match getAttribute d m "name" with
  | Some key => Some key
  | None => getAttribute d m "property"
  end.

(** The [content] of the [meta] element if it contributes under [key]. *)
Definition meta_content_for (d : Document) (key : string) (m : node)
  : option string :=
  if decide (meta_key d m = Some key) then getAttribute d m "content" else None.

Module Sample5.
Import Sample.

(** Meta tags with a repeated name, and one microdata item. *)
Definition tagged : Document :=
  page [Elem 2 [] None; Elem 3 [] None; Elem 4 [] None; Elem 5 [] None]
       (λ n, match n with
             | 2 => Sample3.plain "META" [("name", "description"); ("content", "first")]
             | 3 => Sample3.plain "META" [("property", "og:title"); ("content", "T")]
             | 4 => Sample3.plain "META" [("name", "description"); ("content", "last")]
             | _ => Sample3.plain "DIV" [("itemscope", "")]
             end)
       (Some 1) (λ _ _, Some 1).

End Sample5.

Module Sample6.
Import Sample.

(** Two JSON-LD scripts without content. *)
Definition empty_scripts : Document :=
  page [Elem 2 [] None; Elem 3 [Text "  "] None]
       (λ n, Sample3.plain "SCRIPT" Sample3.ld_json)
       (Some 1) (λ _ _, Some 1).

End Sample6.

(** ** Stamps written by the labeler *)



Module Sample7.
Import Sample.

(** A button (2) that the page itself has stamped with the name of a
    method of objects. *)
Definition stamped_by_page : Document :=
  page [Elem 2 [Text "Go"] None]
       (λ n, shown "BUTTON" [("__elementId", "hasOwnProperty")]
                   (box 10 10 80 20) "Go")
       (Some 1) (λ _ _, Some 2).

End Sample7.


(** * Properties *)

Lemma completion_pair_eta {A B} (r : completion A * B) (a : A) :
  r.1 = Normal a → r = (Normal a, r.2).
Proof. destruct r as [c b]. simpl. by intros ->. Qed.


(** ** Geometry and visibility oracle *)

Lemma isTopmost_walk_elem_of elm chain :
  isTopmost_walk elm chain = true ↔ elm ∈ chain.
Proof.
  induction chain as [|hit up IH]; simpl.
  - split; [done | by intros ?%elem_of_nil].
  - case_decide as Heq.
    + subst. split; [intros _; left | done].
    + rewrite IH, elem_of_cons. naive_solver.
Qed.

(** C9.  [isTopmost(element, x, y)] is true exactly when the host reports
    no element at [(x, y)], or reports one that is [element] or has
    [element] on its ancestor chain; it is false otherwise. *)
Theorem isTopmost_spec (d : Document) (elm : node) (x y : Q) :
  isTopmost d elm x y = true ↔
    elementFromPoint d x y = None
    ∨ ∃ hit, elementFromPoint d x y = Some hit
             ∧ (hit = elm ∨ elm ∈ ancestors d hit).
Proof.
  unfold isTopmost. destruct (elementFromPoint d x y) as [hit|].
  - rewrite isTopmost_walk_elem_of, elem_of_cons. split.
    + intros [->|Hin]; right; exists hit; auto.
    + intros [?|(hit' & [= <-] & [->|Hin])]; [done|by left|by right].
  - split; [by left | done].
Qed.

Lemma isTopmost_false (d : Document) (elm hit : node) (x y : Q) :
  elementFromPoint d x y = Some hit →
  hit ≠ elm → elm ∉ ancestors d hit →
  isTopmost d elm x y = false.
Proof.
  intros Hhit Hne Hnin. apply not_true_is_false.
  unfold isTopmost. rewrite Hhit, isTopmost_walk_elem_of, elem_of_cons.
  naive_solver.
Qed.

(** ** Role and name resolver *)

(** C10.  The second [aria-label] check is unreachable: removing it does
    not change the result on any element of any document. *)
Theorem second_aria_label_check_redundant (d : Document) (n : node) :
  getApproximateAriaName d n = getApproximateAriaName_single_check d n.
Proof.
  unfold getApproximateAriaName, getApproximateAriaName_single_check.
  destruct (getAttribute d n "aria-label") as [v|] eqn:Hlabel; [done|].
  destruct (querySelector d n span_label); [done|].
  destruct (getAttribute d n "aria-labelledby"); done.
Qed.

Lemma for_label_unfold d n :
  match getAttribute d n "id" with
  | Some label_id => try_catch (for_label_text d label_id) (λ e, Normal None)
  | None => Normal None
  end = Normal (for_label d n).
Proof.
  unfold for_label. destruct (getAttribute d n "id") as [label_id|]; [|done].
  unfold try_catch. by destruct (for_label_text d label_id).
Qed.

Lemma for_label_spec d n text :
  for_label d n = Some text
  ↔ ∃ label_id,
      getAttribute d n "id" = Some label_id
      ∧ css_escape d = true
      ∧ text = Str.trim
                 (foldl (λ label l, label +:+ innerText (element d l) +:+ " ") ""
                    (querySelectorAll d (doc_children d)
                       [[SType "label"; SAttrEq "for" label_id]]))
      ∧ text ≠ "".
Proof.
  unfold for_label, for_label_text, labels_for.
  destruct (getAttribute d n "id") as [label_id|]; [|naive_solver].
  destruct (css_escape d); simpl; [|naive_solver].
  unfold Str.eqb. case_bool_decide as Hempty; simpl.
  - split; [done|]. intros (? & [= <-] & _ & -> & Hne). done.
  - split.
    + intros [= <-]. by eexists.
    + by intros (? & [= <-] & _ & -> & _).
Qed.

(** C3 (as amended).  The resolver returns the text of the first strategy
    of the cascade that applies, in the stated order, and the trimmed own
    text when none does.  The attribute strategies apply when the
    attribute is present, whatever its value, and so does the
    [aria-labelledby] strategy; the [span.label] and parent [label]
    strategies apply when such an element exists.  Only the [for]-label
    strategy is passed over when its text is empty: it applies when the
    element has an [id] attribute, the host defines [CSS.escape], and the
    trimmed texts of the [label] elements whose [for] is that [id] are
    not empty. *)
Theorem getApproximateAriaName_cascade (d : Document) (n : node) :
  getApproximateAriaName d n
  = default (trimmedInnerText d n) (first_applicable (cascade d n))
  ∧ ∀ text,
      for_label d n = Some text
      ↔ ∃ label_id,
          getAttribute d n "id" = Some label_id
          ∧ css_escape d = true
          ∧ text = Str.trim
                     (foldl (λ label l,
                               label +:+ innerText (element d l) +:+ " ") ""
                        (querySelectorAll d (doc_children d)
                           [[SType "label"; SAttrEq "for" label_id]]))
          ∧ text ≠ "".
Proof.
  split; [|apply for_label_spec].
  unfold getApproximateAriaName, cascade.
  rewrite for_label_unfold. fold (parent_label d n).
  destruct (getAttribute d n "aria-label"); [done|].
  destruct (querySelector d n span_label); [done|].
  destruct (getAttribute d n "aria-labelledby"); [done|]. simpl.
  destruct (for_label d n); [done|].
  destruct (getAttribute d n "name"); [done|].
  destruct (parent_label d n); [done|]. simpl.
  destruct (getAttribute d n "alt"); [done|].
  by destruct (getAttribute d n "title").
Qed.

(** C3 (as stated) fails: with an empty [aria-label] the resolver returns
    the empty string although the [title] strategy yields a text. *)
Lemma empty_aria_label_shadows_title :
  getApproximateAriaName Sample.empty_label_button 2 = ""
  ∧ first_nonempty (cascade_texts Sample.empty_label_button 2) = "Save"
  ∧ ¬ (∀ d n, getApproximateAriaName d n = first_nonempty (cascade_texts d n)).
Proof.
  assert (H1 : getApproximateAriaName Sample.empty_label_button 2 = "")
    by by vm_compute.
  assert (H2 : first_nonempty (cascade_texts Sample.empty_label_button 2) = "Save")
    by by vm_compute.
  split_and!; [done..|].
  intros H. specialize (H Sample.empty_label_button 2).
  rewrite H1, H2 in H. discriminate.
Qed.

(** ** Stamping identifiers does not change what the script reads *)

Lemma foldl_ext {A B} (f g : A → B → A) (a a' : A) (l : list B) :
  (∀ a b, f a b = g a b) → a = a' → foldl f a l = foldl g a' l.
Proof.
  intros Hfg <-. revert a. induction l as [|b l IH]; intros a; simpl; [done|].
  by rewrite Hfg, IH.
Qed.

Lemma foldlM_ext {A B} (f g : A → B → completion A) (a a' : A) (l : list B) :
  (∀ a b, f a b = g a b) → a = a' → foldlM f a l = foldlM g a' l.
Proof.
  intros Hfg <-. revert a. induction l as [|b l IH]; intros a; simpl; [done|].
  rewrite Hfg. destruct (g a b); simpl; [apply IH|done].
Qed.

Section SameButLabels.

Lemma same_but_label_refl e : same_but_label e e.
Proof. by repeat split. Qed.

Lemma same_but_labels_refl d : same_but_labels d d.
Proof. repeat split. Qed.

Lemma same_but_labels_trans d1 d2 d3 :
  same_but_labels d1 d2 → same_but_labels d2 d3 → same_but_labels d1 d3.
Proof.
  intros (Hc & Ha & Hh & He & Hel) (Hc' & Ha' & Hh' & He' & Hel').
  unfold same_but_labels. split_and!; try congruence.
  intros n. specialize (Hel n). specialize (Hel' n).
  destruct Hel as (?&?&?&?&?&?&?&?&?&?&Hat).
  destruct Hel' as (?&?&?&?&?&?&?&?&?&?&Hat').
  unfold same_but_label. split_and!; try congruence.
  intros a Hne. by rewrite Hat', Hat.
Qed.

Lemma setAttribute_same_but_labels d n v :
  same_but_labels d (setAttribute n label_attr v d).
Proof.
  unfold same_but_labels. split_and!; try done. intros m. simpl.
  case_decide; [|apply same_but_label_refl].
  unfold same_but_label. split_and!; try done.
  intros a Hne. simpl. by rewrite lookup_insert_ne.
Qed.

Context (d d' : Document) (Hsame : same_but_labels d d').

Lemma same_children : doc_children d' = doc_children d.
Proof using Hsame. apply Hsame. Qed.

Lemma same_attribute n a :
  a ≠ label_attr → getAttribute d' n a = getAttribute d n a.
Proof using Hsame.
  intros Hne. unfold getAttribute.
  destruct Hsame as (_&_&_&_&Hel). by apply Hel.
Qed.

Lemma same_hasAttribute n a :
  a ≠ label_attr → hasAttribute d' n a = hasAttribute d n a.
Proof using Hsame.
  intros Hne. unfold hasAttribute.
  fold (getAttribute d' n a) (getAttribute d n a). by rewrite same_attribute.
Qed.

Lemma same_tagName n : tagName (element d' n) = tagName (element d n).
Proof using Hsame. destruct Hsame as (_&_&_&_&Hel). apply Hel. Qed.

Lemma same_tag n : tag d' n = tag d n.
Proof using Hsame. unfold tag. by rewrite same_tagName. Qed.

Lemma same_disabled n : disabled (element d' n) = disabled (element d n).
Proof using Hsame. destruct Hsame as (_&_&_&_&Hel). apply Hel. Qed.

Lemma same_innerText n : innerText (element d' n) = innerText (element d n).
Proof using Hsame. destruct Hsame as (_&_&_&_&Hel). apply Hel. Qed.

Lemma same_isVisible n : isVisible d' n = isVisible d n.
Proof using Hsame.
  unfold isVisible. destruct Hsame as (_&_&_&_&Hel).
  destruct (Hel n) as (_&_&->&->&->&_). done.
Qed.

Lemma same_getCursor n : getCursor d' n = getCursor d n.
Proof using Hsame.
  unfold getCursor. destruct Hsame as (_&_&_&_&Hel).
  destruct (Hel n) as (_&_&_&_&_&_&->&_). done.
Qed.

Lemma same_ancestors n : ancestors d' n = ancestors d n.
Proof using Hsame. unfold ancestors. by rewrite same_children. Qed.

Lemma same_isTopmost n x y : isTopmost d' n x y = isTopmost d n x y.
Proof using Hsame.
  unfold isTopmost. destruct Hsame as (_&_&->&_).
  destruct (elementFromPoint d x y); [|done]. by rewrite same_ancestors.
Qed.

Lemma same_simple_matches n s :
  simple_reads label_attr s = false →
  simple_matches (element d' n) s = simple_matches (element d n) s.
Proof using Hsame.
  assert (Hat : ∀ a, a ≠ label_attr →
    attributes (element d' n) !! a = attributes (element d n) !! a).
  { intros a. apply (same_attribute n a). }
  induction s as [tg|a|a v|c|s IH]; simpl; intros Hr.
  - by rewrite same_tagName.
  - rewrite Hat; [done|]. intros ->. by vm_compute in Hr.
  - rewrite Hat; [done|]. intros ->. by vm_compute in Hr.
  - by rewrite Hat.
  - by rewrite IH.
Qed.

Lemma same_matches n sel :
  selector_reads label_attr sel = false →
  matches (element d' n) sel = matches (element d n) sel.
Proof using Hsame.
  unfold matches, selector_reads.
  induction sel as [|c sel IH]; simpl; [done|].
  intros [Hc Hsel]%orb_false_iff. rewrite (IH Hsel). f_equal.
  clear IH Hsel. induction c as [|s c IH]; simpl in *; [done|].
  apply orb_false_iff in Hc as [Hs Hc].
  by rewrite same_simple_matches, IH.
Qed.

Lemma same_querySelectorAll scope sel :
  selector_reads label_attr sel = false →
  querySelectorAll d' scope sel = querySelectorAll d scope sel.
Proof using Hsame.
  intros Hr. unfold querySelectorAll.
  apply list_filter_iff. intros n. by rewrite same_matches.
Qed.

Lemma same_climb cur nd chain : climb d' cur nd chain = climb d cur nd chain.
Proof using Hsame.
  revert nd. induction chain as [|parent up IH]; intros nd; simpl; [done|].
  rewrite same_getCursor. by destruct (Str.eqb _ _).
Qed.

Lemma same_has_topmost_rect n : has_topmost_rect d' n = has_topmost_rect d n.
Proof using Hsame.
  unfold has_topmost_rect. destruct Hsame as (_&_&_&_&Hel).
  destruct (Hel n) as (_&_&_&_&->&_).
  induction (clientRects (element d n)) as [|r l IH]; cbn [existsb]; [done|].
  rewrite IH. destruct (center r). by rewrite same_isTopmost.
Qed.

Lemma same_getInteractiveElementsNoShaddow :
  getInteractiveElementsNoShaddow d' = getInteractiveElementsNoShaddow d.
Proof using Hsame.
  unfold getInteractiveElementsNoShaddow.
  rewrite same_children, !same_querySelectorAll by done.
  apply foldlM_ext.
  - intros results n.
    rewrite same_disabled, same_isVisible, same_getCursor, same_ancestors.
    by rewrite same_climb.
  - apply foldl_ext.
    + intros results n.
      rewrite same_disabled, same_isVisible.
      by rewrite (same_attribute n "role").
    + apply foldl_ext; [|done]. intros results n.
      by rewrite same_disabled, same_isVisible.
Qed.

Lemma same_gather_loop fuel sel stack elements :
  selector_reads label_attr sel = false →
  gather_loop fuel d' sel stack elements = gather_loop fuel d sel stack elements.
Proof using Hsame.
  intros Hr. revert stack elements.
  induction fuel as [|fuel IH]; intros [|root stack] elements; simpl; try done.
  by rewrite same_querySelectorAll, IH.
Qed.

Lemma same_gatherAllElements sel :
  selector_reads label_attr sel = false →
  gatherAllElements d' sel = gatherAllElements d sel.
Proof using Hsame.
  intros Hr. unfold gatherAllElements.
  by rewrite same_children, same_gather_loop.
Qed.

Lemma same_getInteractiveElements :
  getInteractiveElements d' = getInteractiveElements d.
Proof using Hsame.
  unfold getInteractiveElements.
  rewrite same_getInteractiveElementsNoShaddow.
  destruct (getInteractiveElementsNoShaddow d) as [l|e]; [|done]. simpl.
  f_equal. rewrite same_gatherAllElements by done.
  apply foldl_ext.
  - intros results n.
    rewrite same_tag, same_disabled, same_isVisible.
    by rewrite (same_attribute n "type").
  - apply foldl_ext; [|done]. intros results n.
    by rewrite same_has_topmost_rect.
Qed.

End SameButLabels.

(** ** Identity labeler *)

Lemma label_step_same p n :
  same_but_labels (document p) (document (label_step p n)).
Proof.
  unfold label_step. destruct (hasAttribute _ _ _).
  - apply same_but_labels_refl.
  - apply setAttribute_same_but_labels.
Qed.

Lemma label_loop_same elements p :
  same_but_labels (document p) (document (label_loop elements p)).
Proof.
  unfold label_loop. revert p.
  induction elements as [|n l IH]; intros p; simpl.
  - apply same_but_labels_refl.
  - eapply same_but_labels_trans; [apply (label_step_same p n)|apply IH].
Qed.

Lemma hasAttribute_true d n a :
  hasAttribute d n a = true ↔ is_Some (getAttribute d n a).
Proof. unfold hasAttribute, getAttribute. apply bool_decide_eq_true. Qed.

Lemma hasAttribute_false d n a :
  hasAttribute d n a = false ↔ getAttribute d n a = None.
Proof.
  unfold hasAttribute, getAttribute.
  rewrite bool_decide_eq_false, eq_None_not_Some. done.
Qed.

Lemma getAttribute_setAttribute d n a v m b :
  getAttribute (setAttribute n a v d) m b
  = if decide (m = n ∧ b = a) then Some v else getAttribute d m b.
Proof.
  unfold getAttribute, setAttribute. simpl.
  destruct (decide (m = n)) as [->|Hne]; simpl.
  - destruct (decide (b = a)) as [->|Hne'].
    + rewrite lookup_insert_eq. by rewrite decide_True.
    + rewrite lookup_insert_ne by done. by rewrite decide_False by naive_solver.
  - by rewrite decide_False by naive_solver.
Qed.

(** A stamp, once present, is left alone by the labeler. *)
Lemma label_step_keeps p n m v :
  getAttribute (document p) m label_attr = Some v →
  getAttribute (document (label_step p n)) m label_attr = Some v.
Proof.
  intros Hm. unfold label_step.
  destruct (hasAttribute (document p) n "__elementId") eqn:Hn; [done|].
  simpl. rewrite getAttribute_setAttribute.
  case_decide as Heq; [|done]. destruct Heq as [-> _].
  apply hasAttribute_false in Hn. unfold label_attr in Hm. congruence.
Qed.

Lemma label_loop_keeps elements p m v :
  getAttribute (document p) m label_attr = Some v →
  getAttribute (document (label_loop elements p)) m label_attr = Some v.
Proof.
  unfold label_loop. revert p.
  induction elements as [|n l IH]; intros p Hm; simpl; [done|].
  by apply IH, label_step_keeps.
Qed.

Lemma label_step_labels p n :
  hasAttribute (document (label_step p n)) n label_attr = true.
Proof.
  unfold label_step.
  destruct (hasAttribute (document p) n "__elementId") eqn:Hn; [done|].
  apply hasAttribute_true. simpl. rewrite getAttribute_setAttribute.
  by rewrite decide_True.
Qed.

Lemma label_loop_labels elements p n :
  n ∈ elements →
  hasAttribute (document (label_loop elements p)) n label_attr = true.
Proof.
  unfold label_loop. revert p.
  induction elements as [|m l IH]; intros p Hin; simpl.
  - by apply elem_of_nil in Hin.
  - apply elem_of_cons in Hin as [->|Hin]; [|by apply IH].
    pose proof (label_step_labels p m) as Hm.
    apply hasAttribute_true in Hm as [v Hv].
    apply hasAttribute_true. exists v.
    by apply (label_loop_keeps l).
Qed.

Lemma label_loop_noop elements p :
  (∀ n, n ∈ elements → hasAttribute (document p) n label_attr = true) →
  label_loop elements p = p.
Proof.
  unfold label_loop.
  induction elements as [|n l IH]; intros Hall; simpl; [done|].
  assert (Hstep : label_step p n = p).
  { unfold label_step. pose proof (Hall n (list_elem_of_here _ _)) as Hn.
    unfold label_attr in Hn. by rewrite Hn. }
  rewrite Hstep. apply IH. intros m Hm. apply Hall. by right.
Qed.

Lemma label_loop_idempotent elements p :
  label_loop elements (label_loop elements p) = label_loop elements p.
Proof. apply label_loop_noop. intros n Hn. by apply label_loop_labels. Qed.

Lemma getInteractiveRects_trace_idempotent p :
  getInteractiveRects_trace (getInteractiveRects_trace p).2
  = getInteractiveRects_trace p.
Proof.
  unfold getInteractiveRects_trace.
  destruct (getInteractiveElements (document p)) as [l|e] eqn:Hel; simpl.
  - assert (Hl : getInteractiveElements (document (label_loop l p)) = Normal l).
    { rewrite <- Hel. apply same_getInteractiveElements, label_loop_same. }
    rewrite Hl. simpl. by rewrite label_loop_idempotent, Hl.
  - by rewrite Hel.
Qed.

(** C5.  On an unchanged document a second [labelElements] call on the
    same nodes leaves the page as the first call left it (no identifier
    is assigned, the counter does not move) and returns the same list;
    a second [getInteractiveRects()] call returns the same object, key
    for key and value for value, as the first. *)
Theorem labelling_idempotent (p : Page) (elements : list node) :
  labelElements elements (labelElements elements p).2 = labelElements elements p
  ∧ getInteractiveRects (getInteractiveRects p).2 = getInteractiveRects p.
Proof.
  split.
  - unfold labelElements. simpl. by rewrite label_loop_idempotent.
  - unfold getInteractiveRects.
    pose proof (getInteractiveRects_trace_idempotent p) as H.
    destruct (getInteractiveRects_trace p) as [tr p1]. simpl in *.
    by rewrite H.
Qed.

(** ** Interactivity classifier *)

Lemma foldl_invariant {A B} (P : A → Prop) (f : A → B → A) (a : A) (l : list B) :
  P a → (∀ a b, b ∈ l → P a → P (f a b)) → P (foldl f a l).
Proof.
  revert a. induction l as [|b l IH]; intros a Ha Hstep; simpl; [done|].
  apply IH.
  - apply Hstep; [left|done].
  - intros a' b' Hb'. apply Hstep. by right.
Qed.

Lemma elem_of_push {A} (l : list A) (x y : A) : y ∈ push l x ↔ y ∈ l ∨ y = x.
Proof. unfold push. rewrite elem_of_app, list_elem_of_singleton. done. Qed.

Lemma has_topmost_rect_visible d n :
  has_topmost_rect d n = true → isVisible d n = true.
Proof.
  unfold has_topmost_rect, isVisible.
  destruct (clientRects (element d n)); simpl; [done|].
  intros _. by rewrite orb_true_r.
Qed.

(** Every element [getInteractiveElements] returns is visible, or is a
    file input, or is an [option]. *)
Lemma getInteractiveElements_shown d l n :
  getInteractiveElements d = Normal l → n ∈ l →
  isVisible d n = true ∨ is_file_input d n = true ∨ is_option d n = true.
Proof.
  unfold getInteractiveElements.
  destruct (getInteractiveElementsNoShaddow d) as [l0|e]; [|done]. simpl.
  intros [= <-]. revert n.
  apply (foldl_invariant
           (λ results, ∀ n, n ∈ results →
              isVisible d n = true ∨ is_file_input d n = true
              ∨ is_option d n = true)).
  - apply (foldl_invariant (λ results, ∀ n, n ∈ results → _)).
    + by intros n ?%elem_of_nil.
    + intros results m _ IH n.
      case_bool_decide; [|by apply IH].
      destruct (has_topmost_rect d m) eqn:Htop; [|by apply IH].
      intros [?| ->]%elem_of_push; [by apply IH|].
      left. by apply has_topmost_rect_visible.
  - intros results m _ IH n. fold (is_file_input d m) (is_option d m).
    destruct (is_file_input d m) eqn:Hfile.
    { intros [?| ->]%elem_of_push; [by apply IH|]. by right; left. }
    destruct (is_option d m) eqn:Hopt.
    { intros [?| ->]%elem_of_push; [by apply IH|]. by right; right. }
    destruct (disabled (element d m) || negb (isVisible d m)) eqn:Hskip;
      [by apply IH|].
    apply orb_false_iff in Hskip as [_ Hvis%negb_false_iff].
    case_bool_decide; [|by apply IH].
    intros [?| ->]%elem_of_push; [by apply IH|]. by left.
Qed.

(** ** Snapshot assembler *)

Lemma rects_loop_inv d elements tr n kv :
  rects_loop d elements = Normal tr → (n, kv) ∈ tr →
  n ∈ elements ∧ rects_step d n = Normal (Some kv).
Proof.
  revert tr. induction elements as [|m l IH]; intros tr; simpl.
  - intros [= <-]. by intros ?%elem_of_nil.
  - destruct (rects_step d m) as [r|e] eqn:Hstep; [|done]. simpl.
    destruct (rects_loop d l) as [rest|e]; [|done]. simpl.
    intros [= <-] Hin.
    assert (Hrest : (n, kv) ∈ rest → n ∈ m :: l ∧ rects_step d n = Normal (Some kv)).
    { intros H. destruct (IH rest eq_refl H). split; [by right|done]. }
    destruct r as [kv'|]; [|by apply Hrest].
    apply elem_of_cons in Hin as [[= -> ->]|?]; [|by apply Hrest].
    split; [left|done].
Qed.


(** What a returning [getInteractiveRects] call went through. *)
Lemma getInteractiveRects_trace_inv p tr p' :
  getInteractiveRects_trace p = (Normal tr, p') →
  ∃ elements,
    getInteractiveElements (document p) = Normal elements
    ∧ p' = label_loop elements p
    ∧ getInteractiveElements (document p') = Normal elements
    ∧ rects_loop (document p') elements = Normal tr.
Proof.
  unfold getInteractiveRects_trace.
  destruct (getInteractiveElements (document p)) as [l|e] eqn:Hel; [|done].
  simpl. intros [= Htr <-]. exists l.
  assert (Hl : getInteractiveElements (document (label_loop l p)) = Normal l).
  { rewrite <- Hel. apply same_getInteractiveElements, label_loop_same. }
  rewrite Hl in Htr. simpl in Htr. done.
Qed.

Lemma elem_of_set_own {V} (k : string) (v : V) (o : Obj.t V) kv :
  kv ∈ Obj.set_own k v o → kv = (k, v) ∨ kv ∈ o.
Proof.
  induction o as [|[k' v'] o IH]; simpl.
  - intros ->%list_elem_of_singleton. by left.
  - case_decide.
    + intros [->|?]%elem_of_cons; [by left|right; by right].
    + intros [->|?]%elem_of_cons; [right; left|].
      destruct (IH H0); [by left|right; by right].
Qed.

Lemma elem_of_set {V} (k : string) (v : V) (o : Obj.t V) kv :
  kv ∈ Obj.set k v o → kv = (k, v) ∨ kv ∈ o.
Proof.
  unfold Obj.set. case_decide; [by right|apply elem_of_set_own].
Qed.

Lemma elem_of_results_of tr kv :
  kv ∈ results_of tr → ∃ n, (n, kv) ∈ tr.
Proof.
  unfold results_of.
  assert (H : ∀ acc, kv ∈ foldl (λ results e, Obj.set e.2.1 e.2.2 results) acc tr →
              kv ∈ acc ∨ ∃ n, (n, kv) ∈ tr).
  { induction tr as [|[n [k v]] tr IH]; intros acc; simpl; [by left|].
    intros [Hacc|[m Hm]]%IH.
    - apply elem_of_set in Hacc as [->|?]; [|by left].
      right. exists n. left.
    - right. exists m. by right. }
  intros [?%elem_of_nil|?]%H; done.
Qed.

Lemma elem_of_insert_sorted {V} (x y : N * (string * V)) l :
  y ∈ Obj.insert_sorted x l → y = x ∨ y ∈ l.
Proof.
  induction l as [|z l IH]; simpl.
  - intros ->%list_elem_of_singleton. by left.
  - destruct (_ <=? _)%N.
    + intros [->|?]%elem_of_cons; [by left|by right].
    + intros [->|?]%elem_of_cons; [right; left|].
      destruct (IH H); [by left|right; by right].
Qed.

Lemma elem_of_entries {V} (o : Obj.t V) kv : kv ∈ Obj.entries o → kv ∈ o.
Proof.
  unfold Obj.entries. intros [Hin|Hin]%elem_of_app.
  - apply list_elem_of_fmap in Hin as ([i kv'] & -> & Hin). simpl.
    assert (H : ∀ l : list (N * (string * V)),
              (i, kv') ∈ foldr Obj.insert_sorted [] l → (i, kv') ∈ l).
    { induction l as [|z l IH]; simpl; [done|].
      intros [->|?]%elem_of_insert_sorted; [left|right; by apply IH]. }
    apply H, list_elem_of_omap in Hin as (kv'' & Hin & Heq).
    destruct (Obj.index kv''.1); simplify_eq/=. done.
  - by apply list_elem_of_filter in Hin as [_ ?].
Qed.

Lemma elem_of_insert_sorted_2 {V} (x y : N * (string * V)) l :
  y = x ∨ y ∈ l → y ∈ Obj.insert_sorted x l.
Proof.
  induction l as [|z l IH]; simpl.
  - intros [->|?%elem_of_nil]; [left|done].
  - destruct (_ <=? _)%N.
    + intros [->|?]; [left|by right].
    + intros [->|[->|?]%elem_of_cons]; [right; apply IH; by left|left|].
      right. apply IH. by right.
Qed.

Lemma elem_of_entries_2 {V} (o : Obj.t V) kv : kv ∈ o → kv ∈ Obj.entries o.
Proof.
  intros Hin. unfold Obj.entries. apply elem_of_app.
  destruct (Obj.index kv.1) as [i|] eqn:Hi.
  - left. apply list_elem_of_fmap. exists (i, kv). split; [done|].
    assert (H : ∀ l : list (N * (string * V)),
              (i, kv) ∈ l → (i, kv) ∈ foldr Obj.insert_sorted [] l).
    { induction l as [|z l IH]; simpl; [done|].
      intros [->|?]%elem_of_cons; apply elem_of_insert_sorted_2;
        [by left|right; by apply IH]. }
    apply H, list_elem_of_omap. exists kv. split; [done|]. by rewrite Hi.
  - right. by apply list_elem_of_filter.
Qed.

Lemma set_own_keys {V} (k : string) (v : V) (o : Obj.t V) :
  (Obj.set_own k v o).*1 = if decide (k ∈ o.*1) then o.*1 else o.*1 ++ [k].
Proof.
  induction o as [|[k' v'] o IH]; [done|].
  cbn [Obj.set_own]. rewrite fmap_cons. cbn [fst].
  destruct (decide (k' = k)) as [->|Hne].
  - rewrite fmap_cons. cbn [fst]. by rewrite decide_True by left.
  - rewrite fmap_cons, IH. cbn [fst].
    destruct (decide (k ∈ o.*1)) as [Hin|Hnin].
    + by rewrite decide_True by (by right).
    + rewrite decide_False; [done|].
      intros [?|?]%elem_of_cons; congruence.
Qed.

Lemma set_keys_NoDup {V} (k : string) (v : V) (o : Obj.t V) :
  NoDup o.*1 → NoDup (Obj.set k v o).*1.
Proof.
  intros Hnd. unfold Obj.set. case_decide; [done|].
  rewrite set_own_keys. case_decide; [done|].
  apply NoDup_app. split_and!; [done| |apply NoDup_singleton].
  intros x Hx ->%list_elem_of_singleton. done.
Qed.

Lemma insert_sorted_perm {V} (x : N * (string * V)) l :
  Obj.insert_sorted x l ≡ₚ x :: l.
Proof.
  induction l as [|y l IH]; simpl; [done|].
  destruct (_ <=? _)%N; [done|]. rewrite IH. apply Permutation_swap.
Qed.

Lemma entries_perm {V} (o : Obj.t V) : Obj.entries o ≡ₚ o.
Proof.
  unfold Obj.entries.
  assert (H1 : ∀ l : list (N * (string * V)),
             foldr Obj.insert_sorted [] l ≡ₚ l).
  { induction l as [|x l IH]; simpl; [done|].
    by rewrite insert_sorted_perm, IH. }
  rewrite H1.
  assert (H2 : (omap (λ kv : string * V, (λ i, (i, kv)) <$> Obj.index kv.1) o).*2
               = filter (λ kv, ¬ (Obj.index kv.1 = None)) o).
  { unfold Obj.t in *. induction o as [|kv o IH]; [done|].
    destruct (Obj.index kv.1) eqn:Hi.
    - rewrite filter_cons_True by (by rewrite Hi).
      cbn [omap list_omap]. rewrite Hi. cbn [fmap option_fmap option_map].
      rewrite fmap_cons. cbn [snd]. by rewrite <- IH.
    - rewrite filter_cons_False by (rewrite Hi; naive_solver).
      cbn [omap list_omap]. rewrite Hi. cbn [fmap option_fmap option_map].
      exact IH. }
  rewrite H2. rewrite Permutation_app_comm. apply filter_app_complement.
Qed.

Lemma get_set_own_eq {V} (k : string) (v : V) (o : Obj.t V) :
  Obj.get k (Obj.set_own k v o) = Some v.
Proof.
  induction o as [|[k' v'] o IH]; simpl.
  - by rewrite decide_True.
  - destruct (decide (k' = k)) as [->|Hne]; simpl.
    + by rewrite decide_True.
    + by rewrite decide_False.
Qed.

Lemma get_set_own_ne {V} (k k' : string) (v : V) (o : Obj.t V) :
  k' ≠ k → Obj.get k' (Obj.set_own k v o) = Obj.get k' o.
Proof.
  intros Hne. induction o as [|[k'' v''] o IH]; simpl.
  - by rewrite decide_False.
  - destruct (decide (k'' = k)) as [->|Hne']; simpl.
    + by rewrite !decide_False.
    + by rewrite IH.
Qed.

Lemma same_is_file_input d d' n :
  same_but_labels d d' → is_file_input d' n = is_file_input d n.
Proof.
  intros H. unfold is_file_input.
  by rewrite (same_tag d d' H), (same_attribute d d' H n "type").
Qed.


Lemma elem_of_get {V} (o : Obj.t V) k v : Obj.get k o = Some v → (k, v) ∈ o.
Proof.
  induction o as [|[k' v'] o IH]; simpl; [done|].
  case_decide as Hk.
  - intros [= ->]. subst. left.
  - intros ?. right. by apply IH.
Qed.

Lemma array_loop_sub rects keys acc items kv :
  foldlM (array_step rects) acc keys = Normal items → kv ∈ items →
  kv ∈ acc ∨ kv ∈ rects.
Proof.
  revert acc. induction keys as [|id keys IH]; intros acc; simpl.
  - intros [= <-]. by left.
  - destruct (array_step rects acc id) as [acc'|] eqn:Hstep; simpl; [|done].
    intros Hitems Hkv. destruct (IH _ Hitems Hkv) as [Hacc|?]; [|by right].
    unfold array_step in Hstep.
    destruct (hasOwnProperty "rects" rects id) as [own|]; simpl in Hstep;
      [|done].
    injection Hstep as <-. destruct own; [|by left].
    destruct (Obj.get id rects) as [record|] eqn:Hget; [|by left].
    apply elem_of_push in Hacc as [?| ->]; [by left|].
    right. by apply elem_of_get.
Qed.

Lemma getInteractiveElementsArray_returns p :
  ∃ items, (getInteractiveElementsArray p).1 = Normal items
           ∧ match (getInteractiveRects p).1 with
             | Normal rects => ∀ kv, kv ∈ items → kv ∈ rects
             | Throw _ => items = []
             end.
Proof.
  unfold getInteractiveElementsArray.
  destruct (getInteractiveRects p) as [[rects|e] p']; simpl; [|by eauto].
  destruct (foldlM (array_step rects) [] (Obj.entries rects).*1)
    as [items|e] eqn:Hloop; simpl.
  - exists items. split; [done|]. intros kv Hkv.
    by destruct (array_loop_sub _ _ _ _ _ Hloop Hkv) as [?%elem_of_nil|?].
  - exists []. split; [done|]. by intros kv ?%elem_of_nil.
Qed.

(** C2 (as amended).  A node with zero layout width and height and no
    client rectangles that is neither an [input] of type [file] nor an
    [option] never appears in an interactive snapshot.  It is not among
    the elements [getInteractiveElements] returns.  The exported array
    form always returns; when [getInteractiveRects] returns, its loop
    makes no assignment for the node, and every entry of the returned
    object and every item of the array was assigned for another node;
    when it throws, the array is empty. *)
Theorem collapsed_node_not_in_snapshot (p : Page) (n : node) :
  isVisible (document p) n = false →
  is_file_input (document p) n = false →
  is_option (document p) n = false →
  (∀ elements,
      getInteractiveElements (document p) = Normal elements → n ∉ elements)
  ∧ ∃ items,
      (getInteractiveElementsArray p).1 = Normal items
      ∧ match (getInteractiveRects_trace p).1 with
        | Normal tr =>
            (n ∉ tr.*1)
            ∧ (getInteractiveRects p).1 = Normal (results_of tr)
            ∧ ∀ kv, kv ∈ results_of tr ∨ kv ∈ items →
                    ∃ m, m ≠ n ∧ (m, kv) ∈ tr
        | Throw e => (getInteractiveRects p).1 = Throw e ∧ items = []
        end.
Proof.
  intros Hvis Hfile Hopt.
  assert (Hel : ∀ elements,
            getInteractiveElements (document p) = Normal elements →
            n ∉ elements).
  { intros elements Hl Hn.
    destruct (getInteractiveElements_shown _ _ _ Hl Hn) as [H|[H|H]];
      congruence. }
  split; [done|].
  destruct (getInteractiveElementsArray_returns p) as (items & Hitems & Hsub).
  exists items. split; [done|].
  unfold getInteractiveRects in *.
  destruct (getInteractiveRects_trace p) as [[tr|e] p'] eqn:Htr; simpl in *;
    [|done].
  assert (Hnot : n ∉ (tr.*1)).
  { intros ([m kv] & -> & Hin)%list_elem_of_fmap. simpl in *.
    destruct (getInteractiveRects_trace_inv _ _ _ Htr) as (l & Hl & -> & _ & Hloop).
    destruct (rects_loop_inv _ _ _ _ _ Hloop Hin) as [Hm _].
    by apply (Hel l). }
  split_and!; [done..|].
  intros kv Hkv.
  assert (H : kv ∈ results_of tr) by (destruct Hkv; auto).
  apply elem_of_results_of in H as [m Hm]. exists m. split; [|done].
  intros ->. apply Hnot. apply list_elem_of_fmap. by exists (n, kv).
Qed.

Lemma collapsed_node_not_in_snapshot_witness :
  (∀ elements,
      getInteractiveElements (document (load Sample2.collapsed_button))
      = Normal elements → 2 ∉ elements)
  ∧ ∃ items,
      (getInteractiveElementsArray (load Sample2.collapsed_button)).1
      = Normal items
      ∧ match (getInteractiveRects_trace (load Sample2.collapsed_button)).1 with
        | Normal tr =>
            (2 ∉ tr.*1)
            ∧ (getInteractiveRects (load Sample2.collapsed_button)).1
              = Normal (results_of tr)
            ∧ ∀ kv, kv ∈ results_of tr ∨ kv ∈ items →
                    ∃ m, m ≠ 2 ∧ (m, kv) ∈ tr
        | Throw e =>
            (getInteractiveRects (load Sample2.collapsed_button)).1 = Throw e
            ∧ items = []
        end.
Proof.
  apply (collapsed_node_not_in_snapshot (load Sample2.collapsed_button) 2);
    reflexivity.
Defined.

(** C2 (as stated) fails: a file input without any layout box is
    recorded. *)
Lemma hidden_file_input_in_snapshot :
  offsetWidth (element Sample.hidden_file_input 2) = 0%Z
  ∧ offsetHeight (element Sample.hidden_file_input 2) = 0%Z
  ∧ clientRects (element Sample.hidden_file_input 2) = []
  ∧ (∃ p' tr, getInteractiveRects_trace (load Sample.hidden_file_input)
              = (Normal tr, p') ∧ 2 ∈ (tr.*1))
  ∧ getAttribute (document (getInteractiveRects (load Sample.hidden_file_input)).2)
                 2 "__elementId" = Some "10"
  ∧ (getInteractiveRects (load Sample.hidden_file_input)).1
    = Normal [("10", {| tag_name := "input, type=file"; role := "";
                        aria_name := ""; v_scrollable := false;
                        rects := [Sample.box 0 0 0 0] |})]
  ∧ (getInteractiveElementsArray (load Sample.hidden_file_input)).1
    = Normal [("10", {| tag_name := "input, type=file"; role := "";
                        aria_name := ""; v_scrollable := false;
                        rects := [Sample.box 0 0 0 0] |})]
  ∧ ¬ (∀ p p' n tr,
         isVisible (document p) n = false →
         getInteractiveRects_trace p = (Normal tr, p') → n ∉ (tr.*1)).
Proof.
  assert (H : ∃ p' tr, getInteractiveRects_trace (load Sample.hidden_file_input)
                       = (Normal tr, p') ∧ 2 ∈ (tr.*1)).
  { eexists _, _. split; [apply completion_pair_eta; vm_compute; reflexivity|].
    simpl. left. }
  split_and!; [done..|by vm_compute|by vm_compute|by vm_compute|].
  intros Hclaim. destruct H as (p' & tr & Htr & Hin).
  by apply (Hclaim (load Sample.hidden_file_input) p' 2 tr).
Qed.

(** Every record holds the bounding rectangle alone: the hit test is
    never consulted. *)
Lemma rects_step_rects d n kv :
  rects_step d n = Normal (Some kv) →
  rects kv.2 = [boundingClientRect (element d n)].
Proof.
  unfold rects_step.
  destruct (_ && _); [done|]. simpl. by intros [= <-].
Qed.

(** C1.  On a page whose button is wholly covered by an overlay, the
    record of the button still lists its bounding rectangle, although the
    button is not topmost at the center of that rectangle and has no
    unoccluded rectangle at all. *)
Theorem covered_button_rect_reported :
  (getInteractiveRects (load Sample.covered_button)).1
  = Normal [("10", {| tag_name := "button"; role := "button";
                      aria_name := "Save"; v_scrollable := false;
                      rects := [Sample.box 10 10 80 20] |})]
  ∧ (let '(x, y) := center (Sample.box 10 10 80 20) in
     isTopmost Sample.covered_button 2 x y) = false
  ∧ unoccluded_rects Sample.covered_button 2 = [].
Proof. split_and!; by vm_compute. Qed.

(** ** Tree walker *)

Lemma stack_weight_app s1 s2 :
  stack_weight (s1 ++ s2) = stack_weight s1 + stack_weight s2.
Proof. unfold stack_weight. by rewrite map_app, list_sum_app. Qed.

Lemma stack_weight_singleton scope : stack_weight [scope] = scope_weight scope.
Proof. unfold stack_weight. cbn [map list_sum]. apply Nat.add_0_r. Qed.

Lemma stack_weight_rev s : stack_weight (rev s) = stack_weight s.
Proof.
  induction s as [|x s IH]; simpl; [done|].
  rewrite stack_weight_app, IH. unfold stack_weight. simpl. lia.
Qed.

Lemma open_roots_eq scope :
  open_roots scope = omap open_root (flat_map shadow_roots_of scope).
Proof. done. Qed.

Lemma open_roots_cons t scope :
  open_roots (t :: scope) = open_roots [t] ++ open_roots scope.
Proof.
  rewrite !open_roots_eq. simpl. rewrite app_nil_r. apply omap_app.
Qed.

(** The weight of a tree counts the open shadow trees below it. *)
Lemma open_scopes_weight t :
  open_scopes t = stack_weight (open_roots [t]).
Proof.
  induction t as [data|n kids sh IH] using Tree_forall_ind; [done|].
  rewrite open_roots_eq. simpl. rewrite app_nil_r, omap_app, stack_weight_app.
  f_equal.
  - by destruct sh as [[[] skids]|].
  - induction IH as [|k kids Hk _ IHkids]; simpl; [done|].
    rewrite omap_app, stack_weight_app, IHkids, Hk.
    rewrite open_roots_eq. simpl. by rewrite app_nil_r.
Qed.

Lemma scope_weight_open_roots scope :
  scope_weight scope = S (stack_weight (open_roots scope)).
Proof.
  unfold scope_weight. f_equal.
  induction scope as [|t scope IH]; simpl; [done|].
  rewrite open_roots_cons, stack_weight_app, IH, open_scopes_weight. done.
Qed.

Lemma reachable_from_pop root stack scope :
  reachable_from (root :: stack) scope ↔
    scope = root ∨ reachable_from (rev (open_roots root) ++ stack) scope.
Proof.
  split.
  - induction 1 as [scope Hin|scope scope' _ IH Hin].
    + apply elem_of_cons in Hin as [->|Hin]; [by left|].
      right. apply reach_root. apply elem_of_app. by right.
    + right. destruct IH as [->|IH].
      * apply reach_root. apply elem_of_app. left.
        rewrite list_elem_of_In, <- in_rev, <- list_elem_of_In. done.
      * by eapply reach_shadow.
  - intros [->|H]; [apply reach_root; left|].
    induction H as [scope Hin|scope scope' _ IH Hin].
    + apply elem_of_app in Hin as [Hin|Hin].
      * rewrite list_elem_of_In, <- in_rev, <- list_elem_of_In in Hin.
        eapply reach_shadow; [apply reach_root; left|done].
      * apply reach_root. by right.
    + by eapply reach_shadow.
Qed.

Lemma reachable_from_nil scope : ¬ reachable_from [] scope.
Proof. induction 1 as [? ?%elem_of_nil|]; done. Qed.

(** With fuel for every scope on and below the stack, the loop of
    [gatherAllElements] ends, and returns the accumulated elements
    followed by the matches of every scope it reaches. *)
Lemma gather_loop_spec d sel fuel stack elements :
  (stack_weight stack ≤ fuel)%nat →
  ∃ l, gather_loop fuel d sel stack elements = Some l
       ∧ ∀ n, n ∈ l ↔
           n ∈ elements
           ∨ ∃ scope, reachable_from stack scope
                      ∧ n ∈ querySelectorAll d scope sel.
Proof.
  revert stack elements.
  induction fuel as [|fuel IH]; intros [|root stack] elements Hfuel.
  - exists elements. split; [done|]. intros n. split; [by left|].
    by intros [?|(scope & ?%reachable_from_nil & _)].
  - unfold stack_weight, scope_weight in Hfuel. simpl in Hfuel. lia.
  - exists elements. split; [done|]. intros n. split; [by left|].
    by intros [?|(scope & ?%reachable_from_nil & _)].
  - simpl.
    destruct (IH (rev (open_roots root) ++ stack)
                 (elements ++ querySelectorAll d root sel)) as (l & Hl & Hspec).
    { rewrite stack_weight_app, stack_weight_rev.
      change (stack_weight (root :: stack))
        with (scope_weight root + stack_weight stack) in Hfuel.
      rewrite scope_weight_open_roots in Hfuel. lia. }
    exists l. split; [done|]. intros n. rewrite Hspec, elem_of_app.
    setoid_rewrite reachable_from_pop. naive_solver.
Qed.

Lemma gatherAllElements_spec d sel n :
  n ∈ gatherAllElements d sel ↔
    ∃ scope, reachable d scope ∧ n ∈ querySelectorAll d scope sel.
Proof.
  unfold gatherAllElements, reachable.
  destruct (gather_loop_spec d sel (scope_weight (doc_children d))
              [doc_children d] []) as (l & -> & Hspec).
  { by rewrite stack_weight_singleton. }
  simpl. rewrite Hspec. split; [|by right].
  by intros [?%elem_of_nil|?].
Qed.

(** The walker never runs out of fuel. *)
Lemma gatherAllElements_terminates d sel :
  gather_loop (scope_weight (doc_children d)) d sel [doc_children d] []
  = Some (gatherAllElements d sel).
Proof.
  unfold gatherAllElements.
  destruct (gather_loop_spec d sel (scope_weight (doc_children d))
              [doc_children d] []) as (l & -> & _); [|done].
  by rewrite stack_weight_singleton.
Qed.

(** ** The option policy *)

Lemma foldl_push_elem {A B} (f : list A → B → list A) (a : list A) (l : list B)
    (x : A) (b : B) :
  (∀ a b' y, y ∈ a → y ∈ f a b') → (∀ a, x ∈ f a b) → b ∈ l → x ∈ foldl f a l.
Proof.
  intros Hmono Hpush. revert a.
  induction l as [|b' l IH]; intros a Hin; simpl.
  - by apply elem_of_nil in Hin.
  - apply elem_of_cons in Hin as [<-|Hin]; [|by apply IH].
    apply (foldl_invariant (λ r, x ∈ r)); [apply Hpush|].
    intros r b' _. apply Hmono.
Qed.







Lemma last_is_Some {A} (l : list A) x : x ∈ l → is_Some (last l).
Proof.
  intros Hx. destruct (last l) eqn:Hl; [done|].
  apply last_None in Hl. subst. by apply elem_of_nil in Hx.
Qed.










(** The closed, unfocused [select] with three options without layout:
    the object holds the record of the [select] alone; with the [select]
    focused it holds one for each of the three options as well. *)
Example three_options_unfocused :
  ((getInteractiveRects (load (Sample2.three_options 1))).1
   ≫= λ results, Normal (results.*1)) = Normal ["10"]
  ∧ (λ o, key_of (document (getInteractiveRects
                              (load (Sample2.three_options 1))).2) o)
      <$> [2; 3; 4; 5] = ["10"; "11"; "12"; "13"].
Proof. by vm_compute. Qed.

Example three_options_focused :
  ((getInteractiveRects (load (Sample2.three_options 2))).1
   ≫= λ results, Normal (results.*1)) = Normal ["10"; "11"; "12"; "13"]
  ∧ (λ o, key_of (document (getInteractiveRects
                              (load (Sample2.three_options 2))).2) o)
      <$> [2; 3; 4; 5] = ["10"; "11"; "12"; "13"].
Proof. by vm_compute. Qed.


(** ** Page lifetime *)

Lemma consecutive_from_app lo l1 l2 :
  consecutive_from lo (l1 ++ l2)
  ↔ consecutive_from lo l1
    ∧ consecutive_from (lo + N.of_nat (length l1))%N l2.
Proof.
  revert lo. induction l1 as [|i l1 IH]; intros lo; simpl.
  - rewrite N.add_0_r. naive_solver.
  - rewrite IH.
    replace (N.succ lo + N.of_nat (length l1))%N
      with (lo + N.pos (Pos.of_succ_nat (length l1)))%N by lia.
    naive_solver.
Qed.

Lemma consecutive_from_bounds lo l i :
  consecutive_from lo l → i ∈ l →
  (lo ≤ i ∧ i < lo + N.of_nat (length l))%N.
Proof.
  revert lo. induction l as [|j l IH]; intros lo Hl Hi.
  - by apply elem_of_nil in Hi.
  - destruct Hl as [-> Hl]. apply elem_of_cons in Hi as [->|Hi].
    + simpl. lia.
    + specialize (IH _ Hl Hi). simpl. lia.
Qed.

Lemma consecutive_from_sorted lo l :
  consecutive_from lo l → StronglySorted N.lt l.
Proof.
  revert lo. induction l as [|j l IH]; intros lo Hl; [constructor|].
  destruct Hl as [-> Hl]. constructor; [by eapply IH|].
  apply Forall_forall. intros i Hi.
  pose proof (consecutive_from_bounds _ _ _ Hl Hi). lia.
Qed.

Lemma consecutive_from_NoDup lo l : consecutive_from lo l → NoDup l.
Proof.
  revert lo. induction l as [|j l IH]; intros lo Hl; [constructor|].
  destruct Hl as [-> Hl]. constructor; [|by eapply IH].
  intros Hi. pose proof (consecutive_from_bounds _ _ _ Hl Hi). lia.
Qed.

(** One run of the loop hands out the numbers from [nextLabel] on and
    leaves the counter behind the last of them. *)
Lemma label_log_numbers elements p :
  consecutive_from (nextLabel p) (label_log elements p).*2
  ∧ nextLabel (label_loop elements p)
    = (nextLabel p + N.of_nat (length (label_log elements p)))%N.
Proof.
  unfold label_loop. revert p.
  induction elements as [|n l IH]; intros p; simpl.
  - split; [done|lia].
  - destruct (IH (label_step p n)) as [IH1 IH2]. revert IH1 IH2.
    unfold label_step.
    destruct (hasAttribute (document p) n "__elementId"); simpl.
    + done.
    + intros IH1 IH2. split; [done|]. rewrite IH2. lia.
Qed.

(** A logged element carries the logged number when the loop is over. *)
Lemma label_log_stamps elements p n i :
  (n, i) ∈ label_log elements p →
  getAttribute (document p) n label_attr = None
  ∧ getAttribute (document (label_loop elements p)) n label_attr
    = Some (pretty i).
Proof.
  unfold label_loop. revert p.
  induction elements as [|m l IH]; intros p; simpl.
  - by intros ?%elem_of_nil.
  - intros [Hin|Hin]%elem_of_app.
    + destruct (hasAttribute (document p) m "__elementId") eqn:Hm.
      { by apply elem_of_nil in Hin. }
      apply list_elem_of_singleton in Hin as [= -> ->].
      split; [by apply hasAttribute_false|].
      apply (label_loop_keeps l). unfold label_step. rewrite Hm. simpl.
      rewrite getAttribute_setAttribute. by rewrite decide_True.
    + destruct (IH _ Hin) as [Hnone Hsome]. split; [|done].
      revert Hnone. unfold label_step.
      destruct (hasAttribute (document p) m "__elementId") eqn:Hm; [done|].
      simpl. rewrite getAttribute_setAttribute. by case_decide.
Qed.

Lemma lifetime_snoc d events e :
  lifetime d (events ++ [e]) = run_event (lifetime d events) e.
Proof. unfold lifetime. by rewrite foldl_app. Qed.

Lemma lifetime_numbers d events :
  consecutive_from 10 (lifetime d events).2.*2
  ∧ nextLabel (lifetime d events).1
    = (10 + N.of_nat (length (lifetime d events).2))%N.
Proof.
  induction events as [|e events [IH1 IH2]] using rev_ind.
  - split; [done|]. reflexivity.
  - rewrite lifetime_snoc. destruct e as [elements|change]; simpl; [|done].
    destruct (label_log_numbers elements (lifetime d events).1) as [H1 H2].
    rewrite fmap_app, consecutive_from_app, length_app, length_fmap.
    rewrite H2, IH2. rewrite IH2 in H1. split; [done|lia].
Qed.

Lemma lifetime_stamps d events n :
  Forall (keeps_stamp n) events →
  ∀ i, (n, i) ∈ (lifetime d events).2 →
    getAttribute (document (lifetime d events).1) n label_attr = Some (pretty i)
    ∧ ∀ j, (n, j) ∈ (lifetime d events).2 → j = i.
Proof.
  induction events as [|e events IH] using rev_ind; intros Hkeep.
  - by intros i ?%elem_of_nil.
  - apply Forall_app in Hkeep as [Hkeep He].
    apply (proj1 (Forall_singleton _ _)) in He. specialize (IH Hkeep).
    rewrite lifetime_snoc. destruct e as [elements|change]; simpl.
    + assert (Hnew : ∀ i, (n, i) ∈ label_log elements (lifetime d events).1 →
                ∀ j, (n, j) ∈ (lifetime d events).2 → False).
      { intros i [Hnone _]%label_log_stamps j Hj.
        destruct (IH j Hj) as [Hsome _]. congruence. }
      intros i Hi. apply elem_of_app in Hi as [Hi|Hi].
      * destruct (IH i Hi) as [Hsome Huniq]. split.
        { by apply label_loop_keeps. }
        intros j [Hj|Hj]%elem_of_app; [by apply Huniq|].
        destruct (Hnew j Hj i Hi).
      * pose proof (label_log_stamps _ _ _ _ Hi) as [_ Hsome].
        split; [done|].
        intros j [Hj|Hj]%elem_of_app; [destruct (Hnew i Hi j Hj)|].
        apply label_log_stamps in Hj as [_ Hj].
        rewrite Hsome in Hj. injection Hj as Hj. by apply (inj pretty) in Hj.
    + intros i Hi. destruct (IH i Hi) as [Hsome Huniq].
      split; [|done]. by apply He.
Qed.

(** C6.  Over any page lifetime (calls of the labeler interleaved with
    arbitrary changes of the document) the numbers the labeler assigns
    are 10, 11, 12, ... in the order of assignment: strictly increasing,
    written as pairwise distinct strings, and the counter stands behind
    the last of them.  An element whose stamp nothing else removes or
    rewrites is assigned at most one number and carries it at the end,
    whatever happens to other elements. *)
Theorem identifiers_strictly_increasing (d : Document) (events : list Event) :
  let p := (lifetime d events).1 in
  let log := (lifetime d events).2 in
  consecutive_from initial_nextLabel (log.*2)
  ∧ StronglySorted N.lt (log.*2)
  ∧ NoDup (pretty <$> log.*2)
  ∧ nextLabel p = (initial_nextLabel + N.of_nat (length log))%N
  ∧ ∀ n, Forall (keeps_stamp n) events →
      ∀ i, (n, i) ∈ log →
        getAttribute (document p) n "__elementId" = Some (pretty i)
        ∧ ∀ j, (n, j) ∈ log → j = i.
Proof.
  intros p log. destruct (lifetime_numbers d events) as [Hcons Hnext].
  split_and!.
  - done.
  - by eapply consecutive_from_sorted.
  - apply (NoDup_fmap_2 _). by eapply consecutive_from_NoDup.
  - done.
  - apply lifetime_stamps.
Qed.

Lemma identifiers_strictly_increasing_witness :
  let events := [Label [2; 3]; Mutate (removeChild 2); Label [4; 3]] in
  (lifetime Sample2.collapsed_button events).2
  = [(2, 10%N); (3, 11%N); (4, 12%N)]
  ∧ getAttribute (document (lifetime Sample2.collapsed_button events).1)
                 3 "__elementId" = Some "11".
Proof.
  intros events. split; [vm_compute; reflexivity|].
  refine (proj1 (proj2 (proj2 (proj2 (proj2
            (identifiers_strictly_increasing Sample2.collapsed_button events))))
            3 _ 11%N _)).
  - repeat constructor. intros d v Hv. exact Hv.
  - vm_compute. right. left.
Defined.

(** ** Markdown renderer *)

Lemma nonempty_true s : nonempty s = true ↔ s ≠ "".
Proof.
  unfold nonempty, Str.eqb. rewrite negb_true_iff, bool_decide_eq_false. done.
Qed.

(** C7.  [getPageMarkdown] returns a string that is not empty, for every
    document and every amount of stack: the result of the [try] block
    when it completes, and otherwise the diagnostic prefix followed by
    the message of the error thrown in it. *)
Theorem getPageMarkdown_never_throws (m : Messages) (stack : nat)
    (d : Document) :
  ∃ s, getPageMarkdown m stack d = Normal s
       ∧ s ≠ ""
       ∧ match getPageMarkdown_try m stack d with
         | Normal markdown => s = markdown
         | Throw error =>
             s = "Error extracting page content: " +:+ message error
         end.
Proof.
  unfold getPageMarkdown.
  destruct (getPageMarkdown_try m stack d) as [markdown|error] eqn:Htry; simpl.
  - exists markdown. split_and!; [done| |done].
    unfold getPageMarkdown_try in Htry.
    destruct (body d) as [b|]; [|done].
    destruct (walkNodes d m stack (strip d b) "") as [md|]; [|done].
    simpl in Htry. injection Htry as <-.
    destruct (nonempty _) eqn:Hne; [by apply nonempty_true|done].
  - eexists. split_and!; [done| |done]. done.
Qed.

(** ** Page metadata *)


(** The loop over the meta tags completes exactly when no meta tag is
    named [hasOwnProperty]. *)
Lemma meta_tags_loop_spec (metaTags : Obj.t string) :
  match meta_tags_loop metaTags (Obj.entries metaTags).*1 with
  | Normal _ => Obj.get "hasOwnProperty" metaTags = None
  | Throw e =>
      is_Some (Obj.get "hasOwnProperty" metaTags)
      ∧ e = TypeError "metaTags.hasOwnProperty is not a function"
  end.
Proof.
  destruct (Obj.get "hasOwnProperty" metaTags) as [v|] eqn:Hget.
  - pose proof Hget as Hin. apply elem_of_get, elem_of_entries_2 in Hin.
    destruct (Obj.entries metaTags) as [|kv l]; [by apply elem_of_nil in Hin|].
    simpl. unfold hasOwnProperty. rewrite Hget. simpl. by eauto.
  - assert (H : ∀ keys, ∃ b, meta_tags_loop metaTags keys = Normal b).
    { induction keys as [|key keys IH]; simpl; [by eauto|].
      unfold hasOwnProperty. rewrite Hget. simpl.
      case_bool_decide; by eauto. }
    by destruct (H (Obj.entries metaTags).*1) as [b ->].
Qed.

(** * Further properties of the script *)

(** ** Tree walker *)

(** X1.  [gatherAllElements] returns exactly the elements that match the
    selector in the document tree or in a shadow tree reached from it
    through open shadow roots. *)
Theorem gatherAllElements_reachable (d : Document) (sel : Selector) (n : node) :
  n ∈ gatherAllElements d sel
  ↔ ∃ scope, reachable d scope ∧ n ∈ querySelectorAll d scope sel.
Proof. apply gatherAllElements_spec. Qed.

Lemma gather_loop_more_fuel d sel fuel fuel' stack elements l :
  gather_loop fuel d sel stack elements = Some l → (fuel ≤ fuel')%nat →
  gather_loop fuel' d sel stack elements = Some l.
Proof.
  revert fuel' stack elements.
  induction fuel as [|fuel IH]; intros fuel' stack elements.
  - destruct stack; simpl; [|done]. intros [= <-] _. by destruct fuel'.
  - destruct stack as [|scope stack]; simpl.
    + intros [= <-] _. by destruct fuel'.
    + intros Hl Hle. destruct fuel' as [|fuel']; [lia|]. simpl.
      apply (IH fuel'); [done|lia].
Qed.

(** X2.  The [while] loop of [gatherAllElements] empties its stack after
    at most one iteration per scope: the document tree and each open
    shadow tree reachable from it. *)
Theorem gatherAllElements_loop_ends (d : Document) (sel : Selector) (fuel : nat) :
  (scope_weight (doc_children d) ≤ fuel)%nat →
  gather_loop fuel d sel [doc_children d] [] = Some (gatherAllElements d sel).
Proof.
  intros Hle. eapply gather_loop_more_fuel; [|exact Hle].
  apply gatherAllElements_terminates.
Qed.

Lemma gatherAllElements_loop_ends_witness :
  gather_loop 7 Sample2.closed_shadow_select interactive_selector
              [doc_children Sample2.closed_shadow_select] []
  = Some (gatherAllElements Sample2.closed_shadow_select interactive_selector).
Proof.
  apply (gatherAllElements_loop_ends Sample2.closed_shadow_select
           interactive_selector 7).
  vm_compute. lia.
Defined.

(** ** Interactivity classifier *)

(** X3.  Whatever [getInteractiveElements] returns is visible, or is a
    file input or an [option]: these two are the only elements that
    skip the visibility test. *)
Theorem interactive_elements_visible_or_exempt (d : Document)
    (elements : list node) (n : node) :
  getInteractiveElements d = Normal elements → n ∈ elements →
  isVisible d n = true ∨ is_file_input d n = true ∨ is_option d n = true.
Proof. apply getInteractiveElements_shown. Qed.

Lemma interactive_elements_visible_or_exempt_witness :
  isVisible Sample.covered_button 2 = true
  ∨ is_file_input Sample.covered_button 2 = true
  ∨ is_option Sample.covered_button 2 = true.
Proof.
  apply (interactive_elements_visible_or_exempt Sample.covered_button [2] 2).
  - vm_compute. reflexivity.
  - left.
Defined.

Lemma forallb_false_not_all {A} (f : A → bool) l :
  forallb f l = false ↔ ¬ Forall (λ a, f a = true) l.
Proof.
  rewrite <- not_true_iff_false, forallb_forall, Forall_forall.
  split; intros H H'; apply H; intros a Ha; apply H';
    by apply list_elem_of_In.
Qed.

Lemma climb_spec d cur n chain :
  if forallb (λ a, Str.eqb (getCursor d a) cur) chain
  then climb d cur n chain = Throw not_an_element
  else ∃ top, climb d cur n chain = Normal top.
Proof.
  revert n. induction chain as [|parent up IH]; intros n; simpl; [done|].
  destruct (Str.eqb (getCursor d parent) cur); simpl; [apply IH|by eauto].
Qed.

(** A fold whose step throws for the items [throws] selects, whatever
    the accumulator, and completes for the others. *)
Lemma foldlM_throws {A B} (f : A → B → completion A) (throws : B → bool) e0 :
  (∀ a b, if throws b then f a b = Throw e0 else ∃ a', f a b = Normal a') →
  ∀ l a, if existsb throws l then foldlM f a l = Throw e0
         else ∃ a', foldlM f a l = Normal a'.
Proof.
  intros Hf. induction l as [|b l IH]; intros a; simpl; [by eauto|].
  specialize (Hf a b). destruct (throws b); simpl.
  - by rewrite Hf.
  - destruct Hf as [a' ->]. simpl. apply IH.
Qed.

Lemma getInteractiveElementsNoShaddow_spec d :
  if existsb (cursor_reaches_document d)
             (querySelectorAll d (doc_children d) any_selector)
  then getInteractiveElementsNoShaddow d = Throw not_an_element
  else ∃ l, getInteractiveElementsNoShaddow d = Normal l.
Proof.
  unfold getInteractiveElementsNoShaddow.
  apply foldlM_throws. intros results n. unfold cursor_reaches_document.
  destruct (disabled (element d n) || negb (isVisible d n)); simpl;
    [by eauto|].
  destruct (bool_decide (getCursor d n ∈ inertCursors)); simpl; [by eauto|].
  pose proof (climb_spec d (getCursor d n) n (ancestors d n)) as Hclimb.
  destruct (forallb _ _).
  - by rewrite Hclimb.
  - destruct Hclimb as [top ->]. simpl. by eauto.
Qed.

(** X4.  [getInteractiveElementsNoShaddow] throws exactly when some
    enabled, visible element of the document tree has a cursor outside
    [inertCursors] that all its ancestors share: the climb then asks for
    the computed style of the Document node.  It throws nothing else. *)
Theorem cursor_climb_throws (d : Document) :
  (∀ e, getInteractiveElementsNoShaddow d = Throw e → e = not_an_element)
  ∧ (getInteractiveElementsNoShaddow d = Throw not_an_element
     ↔ ∃ n, n ∈ querySelectorAll d (doc_children d) any_selector
            ∧ cursor_reaches_document d n = true).
Proof.
  pose proof (getInteractiveElementsNoShaddow_spec d) as H.
  destruct (existsb _ _) eqn:Hex.
  - split; [intros e; rewrite H; congruence|].
    split; [intros _|done].
    apply existsb_exists in Hex as (n & Hn & Hc). exists n.
    by rewrite list_elem_of_In.
  - destruct H as [l Hl]. split; [intros e; rewrite Hl; congruence|].
    split; [rewrite Hl; congruence|].
    intros (n & Hn & Hc). apply not_true_iff_false in Hex. destruct Hex.
    apply existsb_exists. exists n. by rewrite <- list_elem_of_In.
Qed.

Lemma rects_step_returns d n : ∃ r, rects_step d n = Normal r.
Proof.
  unfold rects_step. destruct (_ && _); simpl; by eauto.
Qed.

Lemma rects_loop_returns d elements : ∃ tr, rects_loop d elements = Normal tr.
Proof.
  induction elements as [|n l [tr IH]]; simpl; [by eauto|].
  destruct (rects_step_returns d n) as [r ->]. rewrite IH. simpl. by eauto.
Qed.

Lemma getInteractiveRects_trace_throws p e :
  (getInteractiveRects_trace p).1 = Throw e
  ↔ getInteractiveElements (document p) = Throw e.
Proof.
  unfold getInteractiveRects_trace, labelElements.
  destruct (getInteractiveElements (document p)) as [l|e'] eqn:Hl; simpl;
    [|split; congruence].
  pose proof (label_loop_same l p) as Hsame.
  rewrite (same_getInteractiveElements _ _ Hsame), Hl. simpl.
  destruct (rects_loop_returns (document (label_loop l p)) l) as [tr ->].
  split; congruence.
Qed.

(** X5.  The loop of [getInteractiveRects] never throws: the call throws
    exactly when [getInteractiveElements] does, with the same error, and
    then no element has been stamped. *)
Theorem getInteractiveRects_throws_iff (p : Page) (e : JsError) :
  ((getInteractiveRects p).1 = Throw e
   ↔ getInteractiveElements (document p) = Throw e)
  ∧ ((getInteractiveRects p).1 = Throw e → (getInteractiveRects p).2 = p).
Proof.
  unfold getInteractiveRects.
  pose proof (getInteractiveRects_trace_throws p e) as H.
  destruct (getInteractiveRects_trace p) as [[tr|e'] p'] eqn:Htr; simpl in *.
  - split; [|done]. rewrite <- H. split; congruence.
  - split; [rewrite <- H; split; congruence|]. intros _.
    unfold getInteractiveRects_trace in Htr.
    destruct (getInteractiveElements (document p)) as [l|?] eqn:Hl.
    + exfalso. unfold labelElements in Htr.
      pose proof (label_loop_same l p) as Hsame.
      rewrite (same_getInteractiveElements _ _ Hsame), Hl in Htr.
      simpl in Htr.
      destruct (rects_loop_returns (document (label_loop l p)) l) as [tr Hloop].
      rewrite Hloop in Htr. done.
    + by injection Htr as _ <-.
Qed.

Lemma get_of_NoDup {V} (o : Obj.t V) k v :
  NoDup o.*1 → (k, v) ∈ o → Obj.get k o = Some v.
Proof.
  induction o as [|[k' v'] o IH]; intros Hnd Hin.
  - by apply elem_of_nil in Hin.
  - rewrite fmap_cons in Hnd. apply NoDup_cons in Hnd as [Hk' Hnd].
    simpl in *. apply elem_of_cons in Hin as [[= -> ->]|Hin].
    + by rewrite decide_True.
    + rewrite decide_False; [by apply IH|].
      intros ->. apply Hk'. apply list_elem_of_fmap. by exists (k, v).
Qed.

Lemma array_loop_entries rects l acc :
  Obj.get "hasOwnProperty" rects = None → NoDup rects.*1 →
  (∀ kv, kv ∈ l → kv ∈ rects) →
  foldlM (array_step rects) acc l.*1 = Normal (acc ++ l).
Proof.
  intros Hown Hnd. revert acc.
  induction l as [|[k v] l IH]; intros acc Hsub; simpl.
  - by rewrite app_nil_r.
  - assert (Hstep : array_step rects acc k = Normal (push acc (k, v))).
    { unfold array_step, hasOwnProperty. rewrite Hown. simpl.
      rewrite (get_of_NoDup rects k v) by (done || apply Hsub; left).
      by rewrite bool_decide_eq_true_2. }
    rewrite Hstep. simpl.
    rewrite IH by (intros kv Hkv; apply Hsub; by right).
    unfold push. by rewrite <- app_assoc.
Qed.

Lemma results_of_NoDup tr : NoDup (results_of tr).*1.
Proof.
  unfold results_of.
  apply (foldl_invariant (λ o : Obj.t InteractiveRecord, NoDup o.*1)).
  - constructor.
  - intros o e _. apply set_keys_NoDup.
Qed.

(** X6.  The exported [getInteractiveElements] never throws and leaves
    the page as [getInteractiveRects] leaves it.  Its array is empty
    when [getInteractiveRects] throws, and also when an element carries
    the stamp [hasOwnProperty]: the test of the loop is then a call of a
    record, and the error is caught.  Otherwise the array lists the own
    properties of the object in enumeration order, each key once. *)
Theorem getInteractiveElementsArray_never_throws (p : Page) :
  (getInteractiveElementsArray p).2 = (getInteractiveRects p).2
  ∧ match (getInteractiveRects p).1 with
    | Normal results =>
        (getInteractiveElementsArray p).1
        = Normal (if decide (is_Some (Obj.get "hasOwnProperty" results))
                  then [] else Obj.entries results)
        ∧ NoDup (Obj.entries results).*1
    | Throw _ => (getInteractiveElementsArray p).1 = Normal []
    end.
Proof.
  unfold getInteractiveElementsArray.
  destruct (getInteractiveRects p) as [[results|e] p'] eqn:Hres; simpl;
    [|done].
  split; [done|].
  assert (Hnd : NoDup results.*1).
  { unfold getInteractiveRects in Hres.
    destruct (getInteractiveRects_trace p) as [[tr|?] ?]; simpl in Hres;
      [|done].
    injection Hres as <- _. apply results_of_NoDup. }
  split; [|by rewrite (entries_perm results)].
  case_decide as Hown.
  - destruct Hown as [record Hown].
    pose proof Hown as Hin. apply elem_of_get, elem_of_entries_2 in Hin.
    destruct (Obj.entries results) as [|[k v] l];
      [by apply elem_of_nil in Hin|].
    simpl. unfold array_step, hasOwnProperty. by rewrite Hown.
  - rewrite array_loop_entries; [done| |done|apply elem_of_entries].
    by apply eq_None_not_Some.
Qed.

(** A button that the page has stamped [hasOwnProperty]: the object
    holds its record, the array is empty. *)
Example stamped_by_page_empties_array :
  (getInteractiveRects (load Sample7.stamped_by_page)).1
  = Normal [("hasOwnProperty",
             {| tag_name := "button"; role := "button"; aria_name := "Go";
                v_scrollable := false; rects := [Sample.box 10 10 80 20] |})]
  ∧ (getInteractiveElementsArray (load Sample7.stamped_by_page)).1 = Normal [].
Proof. split; by vm_compute. Qed.

(** X7.  On a page whose document element is shown with a cursor
    outside [inertCursors], as under [html { cursor: pointer }],
    [getInteractiveRects] throws and the exported
    [getInteractiveElements] returns the empty array, whatever the page
    contains. *)
Theorem inherited_cursor_empties_snapshot (d : Document) (root : node)
    (kids : list Tree) (sh : option (ShadowMode * list Tree)) (rest : list Tree) :
  doc_children d = Elem root kids sh :: rest →
  disabled (element d root) = false → isVisible d root = true →
  getCursor d root ∉ inertCursors →
  (getInteractiveRects (load d)).1 = Throw not_an_element
  ∧ (getInteractiveElementsArray (load d)).1 = Normal [].
Proof.
  intros Hroot Hdis Hvis Hcur.
  assert (Hthrow : getInteractiveElements d = Throw not_an_element).
  { unfold getInteractiveElements.
    pose proof (getInteractiveElementsNoShaddow_spec d) as H.
    replace (existsb _ _) with true in H; [by rewrite H|].
    symmetry. apply existsb_exists. exists root. split.
    - apply list_elem_of_In. unfold querySelectorAll.
      apply list_elem_of_filter. split; [done|]. rewrite Hroot. simpl. left.
    - unfold cursor_reaches_document. rewrite Hdis, Hvis. simpl.
      rewrite bool_decide_eq_false_2 by done. simpl.
      unfold ancestors. rewrite Hroot. simpl.
      by rewrite decide_True. }
  apply (getInteractiveRects_trace_throws (load d)) in Hthrow.
  unfold getInteractiveElementsArray, getInteractiveRects.
  destruct (getInteractiveRects_trace (load d)) as [tr p'].
  simpl in *. by rewrite Hthrow.
Qed.

Lemma inherited_cursor_empties_snapshot_witness :
  (getInteractiveRects (load Sample4.pointer_page)).1 = Throw not_an_element
  ∧ (getInteractiveElementsArray (load Sample4.pointer_page)).1 = Normal [].
Proof.
  refine (inherited_cursor_empties_snapshot Sample4.pointer_page 0 _ _ _ _ _ _ _).
  - reflexivity.
  - reflexivity.
  - reflexivity.
  - apply (bool_decide_eq_false_1 (getCursor Sample4.pointer_page 0 ∈ inertCursors)).
    vm_compute. reflexivity.
Defined.

(** ** Identity labeler *)

(** X8.  After [labelElements] every element of the array carries a
    stamp, and every stamp that was there before the call is still there
    with its value. *)
Theorem labelElements_stamps_all (elements : list node) (p : Page) :
  (∀ n, n ∈ elements →
        hasAttribute (document (labelElements elements p).2) n "__elementId"
        = true)
  ∧ (∀ m v, getAttribute (document p) m "__elementId" = Some v →
            getAttribute (document (labelElements elements p).2) m "__elementId"
            = Some v).
Proof.
  unfold labelElements. simpl. split.
  - intros n Hn. by apply label_loop_labels.
  - intros m v Hm. by apply label_loop_keeps.
Qed.

Lemma label_log_length elements p :
  (length (label_log elements p) ≤ length elements)%nat.
Proof.
  revert p. induction elements as [|n l IH]; intros p; simpl; [done|].
  rewrite length_app. specialize (IH (label_step p n)).
  destruct (hasAttribute _ _ _); simpl; lia.
Qed.

(** X9.  [labelElements] changes nothing of the document but
    [__elementId] attributes, and moves the counter forward by the number
    of stamps it writes, which is at most the length of the array. *)
Theorem labelElements_frame (elements : list node) (p : Page) :
  let p' := (labelElements elements p).2 in
  same_but_labels (document p) (document p')
  ∧ nextLabel p' = (nextLabel p + N.of_nat (length (label_log elements p)))%N
  ∧ (length (label_log elements p) ≤ length elements)%nat.
Proof.
  unfold labelElements. simpl. split_and!.
  - apply label_loop_same.
  - apply label_log_numbers.
  - apply label_log_length.
Qed.

(** X10.  Each stamp written by one run of the loop goes to an element
    that had none, and is the decimal form of the number of the log. *)
Theorem label_log_sound (elements : list node) (p : Page) (n : node) (i : N) :
  (n, i) ∈ label_log elements p →
  n ∈ elements
  ∧ hasAttribute (document p) n "__elementId" = false
  ∧ getAttribute (document (label_loop elements p)) n "__elementId"
    = Some (pretty i)
  ∧ (nextLabel p ≤ i < nextLabel (label_loop elements p))%N.
Proof.
  intros Hin.
  destruct (label_log_stamps _ _ _ _ Hin) as [Hnone Hsome].
  destruct (label_log_numbers elements p) as [Hcons Hnext].
  assert (Hb : (nextLabel p ≤ i < nextLabel (label_loop elements p))%N).
  { rewrite Hnext. eapply consecutive_from_bounds in Hcons.
    - rewrite length_fmap in Hcons. exact Hcons.
    - apply list_elem_of_fmap. by exists (n, i). }
  split_and!; [|by apply hasAttribute_false|done|apply Hb..].
  clear Hnone Hsome Hcons Hnext Hb. revert p Hin.
  induction elements as [|m l IH]; intros p; simpl.
  - by intros ?%elem_of_nil.
  - intros [Hin|Hin]%elem_of_app; [|right; by eapply IH].
    destruct (hasAttribute _ _ _); [by apply elem_of_nil in Hin|].
    apply list_elem_of_singleton in Hin as [= -> _]. left.
Qed.

Lemma label_log_sound_witness :
  let p := load Sample2.collapsed_button in
  let p' := label_loop [3; 2] p in
  2 ∈ [3; 2]
  ∧ hasAttribute (document p) 2 "__elementId" = false
  ∧ getAttribute (document p') 2 "__elementId" = Some (pretty 11%N)
  ∧ (nextLabel p ≤ 11 < nextLabel p')%N.
Proof.
  apply (label_log_sound [3; 2] (load Sample2.collapsed_button) 2 11%N).
  vm_compute. right. left.
Defined.

(** X11.  Stamping an element does not change what
    [getInteractiveElements] returns. *)
Theorem stamps_invisible_to_classifier (d : Document) (n : node) (v : string) :
  getInteractiveElements (setAttribute n "__elementId" v d)
  = getInteractiveElements d.
Proof.
  apply same_getInteractiveElements, setAttribute_same_but_labels.
Qed.

(** ** Focus *)

Lemma first_labelled_spec d chain v :
  first_labelled d chain = Some v
  ↔ ∃ pre m post,
      chain = pre ++ m :: post
      ∧ Forall (λ a, getAttribute d a "__elementId" = None) pre
      ∧ getAttribute d m "__elementId" = Some v.
Proof.
  induction chain as [|elm up IH]; simpl.
  - split; [done|]. intros (pre & m & post & Heq & _). by destruct pre.
  - destruct (hasAttribute d elm "__elementId") eqn:Helm.
    + split.
      * intros Hv. exists [], elm, up. by split_and!.
      * intros (pre & m & post & Heq & Hpre & Hm).
        destruct pre as [|a pre]; simplify_eq/=; [done|].
        apply Forall_cons in Hpre as [Ha _].
        apply hasAttribute_true in Helm as [? Helm]. congruence.
    + apply hasAttribute_false in Helm. rewrite IH. split.
      * intros (pre & m & post & -> & Hpre & Hm).
        exists (elm :: pre), m, post. split_and!; [done| |done].
        by constructor.
      * intros (pre & m & post & Heq & Hpre & Hm).
        destruct pre as [|a pre]; simplify_eq/=.
        apply Forall_cons in Hpre as [_ Hpre]. by exists pre, m, post.
Qed.

(** X12.  [getFocusedElementId] returns the stamp of the nearest stamped
    element on the chain from [document.activeElement] upwards, and
    [null] when there is no active element or no stamped element on that
    chain. *)
Theorem getFocusedElementId_nearest (d : Document) (v : string) :
  getFocusedElementId d = Some v
  ↔ ∃ elm pre m post,
      activeElement d = Some elm
      ∧ elm :: ancestors d elm = pre ++ m :: post
      ∧ Forall (λ a, getAttribute d a "__elementId" = None) pre
      ∧ getAttribute d m "__elementId" = Some v.
Proof.
  unfold getFocusedElementId. destruct (activeElement d) as [elm|].
  - rewrite first_labelled_spec. split.
    + intros (pre & m & post & ?). by exists elm, pre, m, post.
    + intros (? & pre & m & post & [= <-] & ?). by exists pre, m, post.
  - split; [done|]. by intros (? & ? & ? & ? & ? & _).
Qed.

(** ** Snapshot assembler *)


(** X14.  Every record of a snapshot is filed under the stamp of its
    element, never under ["null"]; its [rects] hold the bounding
    rectangle of the element and nothing else; and it is marked
    scrollable exactly when the scroll height exceeds the client height
    by one or more. *)
Theorem snapshot_record_shape (p p' : Page)
    (tr : list (node * (string * InteractiveRecord)))
    (n : node) (key : string) (record : InteractiveRecord) :
  getInteractiveRects_trace p = (Normal tr, p') →
  (n, (key, record)) ∈ tr →
  getAttribute (document p') n "__elementId" = Some key
  ∧ rects record = [boundingClientRect (element (document p) n)]
  ∧ (v_scrollable record = true
     ↔ (1 ≤ scrollHeight (element (document p) n)
            - clientHeight (element (document p) n))%Z)
  ∧ (role record, tag_name record) = getApproximateAriaRole (document p') n
  ∧ aria_name record = getApproximateAriaName (document p') n.
Proof.
  intros Htr Hin.
  destruct (getInteractiveRects_trace_inv _ _ _ Htr)
    as (elements & Hl0 & -> & Hl & Hloop).
  destruct (rects_loop_inv _ _ _ _ _ Hloop Hin) as [Hn Hstep].
  pose proof (label_loop_same elements p) as (_ & _ & _ & _ & Hsame).
  destruct (Hsame n) as (_ & _ & _ & _ & _ & Hbox & _ & _ & Hsh & Hch & _).
  pose proof (label_loop_labels elements p n Hn) as Hlab.
  apply hasAttribute_true in Hlab as [v Hv].
  unfold rects_step in Hstep. destruct (_ && _); [done|].
  simpl in Hstep. injection Hstep as <- <-. simpl.
  rewrite Hbox, Hsh, Hch. unfold key_of. unfold label_attr in Hv.
  rewrite Hv. simpl. split_and!; [done|done| |by destruct (getApproximateAriaRole _ _)|done].
  apply Z.leb_le.
Qed.

Lemma snapshot_record_shape_witness :
  ∃ tr,
    (getInteractiveRects_trace (load Sample.covered_button)).1 = Normal tr
    ∧ ∃ record, (2, ("10", record)) ∈ tr
                ∧ rects record = [Sample.box 10 10 80 20].
Proof.
  eexists. split; [vm_compute; reflexivity|].
  eexists. split; [left|].
  refine (proj1 (proj2 (snapshot_record_shape
            (load Sample.covered_button)
            (getInteractiveRects_trace (load Sample.covered_button)).2
            _ 2 "10" _ _ _))).
  - apply completion_pair_eta. vm_compute. reflexivity.
  - left.
Defined.



(** ** Markdown renderer: stack and shape *)

Lemma height_pos t : (1 ≤ height t)%nat.
Proof. destruct t; simpl; lia. Qed.

Lemma height_kid k kids :
  k ∈ kids → (height k ≤ foldr (λ k h, Nat.max (height k) h) 0 kids)%nat.
Proof.
  induction kids as [|k' kids IH]; [by intros ?%elem_of_nil|].
  intros [->|Hin]%elem_of_cons; simpl; [lia|]. specialize (IH Hin). lia.
Qed.

Lemma walkNodes_returns d m stack t markdown :
  (height t ≤ stack)%nat →
  ∃ markdown', ∀ stack', (stack ≤ stack')%nat →
    walkNodes d m stack' t markdown = Normal markdown'.
Proof.
  revert t markdown. induction stack as [|stack IH]; intros t markdown Hh.
  { pose proof (height_pos t). lia. }
  destruct t as [data|n kids sh].
  - exists (walk_text data markdown). intros [|stack'] Hle; [lia|done].
  - simpl in Hh.
    destruct (processElement d n kids) as [processed|] eqn:Hproc.
    + exists (markdown +:+ processed). intros [|stack'] Hle; [lia|].
      simpl. by rewrite Hproc.
    + assert (Hkids : ∀ ks md,
                (∀ k, k ∈ ks → (height k ≤ stack)%nat) →
                ∃ md', ∀ s', (stack ≤ s')%nat →
                  foldlM (λ md k, walkNodes d m s' k md) md ks = Normal md').
      { induction ks as [|k ks IHks]; intros md Hks; simpl; [by eauto|].
        destruct (IH k md) as [md1 Hmd1]; [apply Hks; left|].
        destruct (IHks md1) as [md2 Hmd2].
        { intros k' Hk'. apply Hks. by right. }
        exists md2. intros s' Hs'. rewrite (Hmd1 s' Hs'). simpl. by apply Hmd2. }
      destruct (Hkids kids markdown) as [md' Hmd'].
      { intros k Hk. pose proof (height_kid k kids Hk). lia. }
      eexists. intros [|stack'] Hle; [lia|]. simpl. rewrite Hproc.
      rewrite (Hmd' stack') by lia. simpl. reflexivity.
Qed.

(** X17.  [walkNodes] completes on a tree when the stack has room for
    the nesting of the tree, and its result is then the same for every
    larger stack. *)
Theorem walkNodes_enough_stack (d : Document) (m : Messages) (stack : nat)
    (t : Tree) (markdown : string) :
  (height t ≤ stack)%nat →
  ∃ markdown',
    walkNodes d m (height t) t markdown = Normal markdown'
    ∧ walkNodes d m stack t markdown = Normal markdown'.
Proof.
  intros Hh.
  destruct (walkNodes_returns d m (height t) t markdown) as [md Hmd];
    [done|].
  exists md. split; apply Hmd; [done|lia].
Qed.

Lemma walkNodes_enough_stack_witness :
  ∃ markdown',
    walkNodes Sample3.article Sample3.v8 3
              (Elem 4 [Text "a"; Elem 5 [Text "b"] None] None) ""
    = Normal markdown'
    ∧ walkNodes Sample3.article Sample3.v8 9
                (Elem 4 [Text "a"; Elem 5 [Text "b"] None] None) ""
      = Normal markdown'.
Proof.
  apply (walkNodes_enough_stack Sample3.article Sample3.v8 9
           (Elem 4 [Text "a"; Elem 5 [Text "b"] None] None) "").
  vm_compute. lia.
Defined.

(** X18.  In a document without a [body], [getPageMarkdown] returns the
    diagnostic prefix followed by the message of the error the engine
    raises for reading [cloneNode] of [null], whatever room the stack
    has. *)
Theorem getPageMarkdown_without_body (m : Messages) (stack : nat)
    (d : Document) :
  body d = None →
  getPageMarkdown m stack d
  = Normal ("Error extracting page content: " +:+ null_read m).
Proof.
  intros Hbody. unfold getPageMarkdown, getPageMarkdown_try. by rewrite Hbody.
Qed.

Lemma getPageMarkdown_without_body_witness :
  getPageMarkdown Sample3.v8 100 Sample3.drawing
  = Normal "Error extracting page content: Cannot read properties of null (reading 'cloneNode')".
Proof.
  apply (getPageMarkdown_without_body Sample3.v8 100 Sample3.drawing).
  reflexivity.
Defined.

Lemma strip_height d t : (height (strip d t) ≤ height t)%nat.
Proof.
  induction t as [data|n kids sh IH] using Tree_forall_ind; simpl; [done|].
  apply le_n_S. induction IH as [|k kids Hk _ IHkids]; simpl; [done|].
  destruct (root_matches d stripped k); simpl; lia.
Qed.

(** X19.  With a [body] and a stack that has room for the nesting of the
    body, the [try] block of [getPageMarkdown] completes: the result is
    the cleaned text of the walk, or ["No content found"] when that is
    empty, and no diagnostic. *)
Theorem getPageMarkdown_with_body (m : Messages) (stack : nat) (d : Document)
    (b : Tree) :
  body d = Some b → (height b ≤ stack)%nat →
  ∃ markdown,
    walkNodes d m stack (strip d b) "" = Normal markdown
    ∧ getPageMarkdown m stack d
      = Normal (let cleaned :=
                  Str.trim (collapse_newlines (collapse_blanks markdown)) in
                if nonempty cleaned then cleaned else "No content found").
Proof.
  intros Hbody Hh.
  destruct (walkNodes_returns d m stack (strip d b) "") as [md Hmd].
  { pose proof (strip_height d b). lia. }
  exists md. split; [by apply Hmd|].
  unfold getPageMarkdown, getPageMarkdown_try. rewrite Hbody.
  by rewrite (Hmd stack).
Qed.

Lemma getPageMarkdown_with_body_witness :
  ∃ markdown,
    walkNodes Sample2.collapsed_button Sample3.v8 5
      (strip Sample2.collapsed_button
         (Elem 1 [Elem 2 [Text "Old"] None; Elem 3 [Text "New"] None] None)) ""
    = Normal markdown
    ∧ getPageMarkdown Sample3.v8 5 Sample2.collapsed_button
      = Normal (let cleaned :=
                  Str.trim (collapse_newlines (collapse_blanks markdown)) in
                if nonempty cleaned then cleaned else "No content found").
Proof.
  apply (getPageMarkdown_with_body Sample3.v8 5 Sample2.collapsed_button).
  - reflexivity.
  - vm_compute. lia.
Defined.

(** X20.  The copy that [getPageMarkdown] renders holds no [script],
    [style], [nav], [footer] or [aside] element below its root, at any
    depth, and no shadow tree; stripping it again changes nothing. *)
Theorem strip_removes (d : Document) (t : Tree) :
  Forall (λ t', root_matches d stripped t' = false) (descendants (strip d t))
  ∧ flat_map shadow_roots_of [strip d t] = []
  ∧ strip d (strip d t) = strip d t.
Proof.
  induction t as [data|n kids sh IH] using Tree_forall_ind;
    [by split_and!|].
  simpl.
  set (go := fix go (ts : list Tree) : list Tree :=
         match ts with
         | [] => []
         | k :: ts' =>
             if root_matches d stripped k then go ts' else strip d k :: go ts'
         end).
  assert (Hroot : ∀ k, root_matches d stripped (strip d k)
                       = root_matches d stripped k).
  { by intros [|]. }
  assert (H : Forall (λ t', root_matches d stripped t' = false)
                     (flat_map subtrees (go kids))
              ∧ flat_map shadow_roots_of (go kids) = []
              ∧ go (go kids) = go kids).
  { induction IH as [|k kids (Hk1 & Hk2 & Hk3) _ (IH1 & IH2 & IH3)];
      [by split_and!|].
    simpl. destruct (root_matches d stripped k) eqn:Hm; [by split_and!|].
    simpl. rewrite Hroot, Hm, Hk3, IH3. simpl in Hk2.
    rewrite app_nil_r in Hk2. rewrite Hk2, IH2. split_and!; [|done..].
    apply Forall_app. split; [|done].
    destruct (strip d k) as [|m ks sh'] eqn:Hs; [constructor|].
    simpl. constructor; [|done].
    rewrite <- Hs. by rewrite Hroot. }
  destruct H as (H1 & H2 & H3). split_and!; [done| |by rewrite H3].
  simpl. by rewrite H2.
Qed.

(** ** Clean-up of the rendered text *)

Lemma collapse_blanks_go_idem s :
  collapse_blanks_go false (collapse_blanks_go false s) = collapse_blanks_go false s
  ∧ collapse_blanks_go false (collapse_blanks_go true s) = collapse_blanks_go true s
  ∧ collapse_blanks_go true (collapse_blanks_go true s) = collapse_blanks_go true s.
Proof.
  induction s as [|c s (IH1 & IH2 & IH3)]; [done|].
  cbn [collapse_blanks_go].
  destruct (Ascii.eqb c " " || Ascii.eqb c tab) eqn:Hc.
  - split_and!; [|done..]. cbn [collapse_blanks_go]. simpl. by rewrite IH3.
  - cbn [collapse_blanks_go]. rewrite Hc, IH1. done.
Qed.

Lemma collapse_blanks_go_no_tab b s :
  contains tab (collapse_blanks_go b s) = false.
Proof.
  revert b. induction s as [|c s IH]; intros b; [done|].
  cbn [collapse_blanks_go].
  destruct (Ascii.eqb c " " || Ascii.eqb c tab) eqn:Hc.
  - destruct b; [apply IH|]. cbn [contains]. by rewrite IH.
  - cbn [contains]. rewrite IH.
    apply orb_false_iff in Hc as [_ ->]. done.
Qed.

Lemma collapse_newlines_go_ge2 r s :
  (2 ≤ r)%nat → collapse_newlines_go r s = collapse_newlines_go 2 s.
Proof.
  revert r. induction s as [|c s IH]; intros r Hr; [done|].
  cbn [collapse_newlines_go]. destruct (Ascii.eqb c (ascii_of_nat 10)).
  - replace (Nat.ltb r 2) with false by (symmetry; apply Nat.ltb_ge; lia).
    replace (Nat.ltb 2 2) with false by done.
    rewrite (IH (S r)) by lia. by rewrite (IH 3) by lia.
  - done.
Qed.

Lemma collapse_newlines_go_idem r s :
  collapse_newlines_go r (collapse_newlines_go r s) = collapse_newlines_go r s.
Proof.
  revert r. induction s as [|c s IH]; intros r; [done|].
  cbn [collapse_newlines_go]. destruct (Ascii.eqb c (ascii_of_nat 10)) eqn:Hc.
  - destruct (Nat.ltb r 2) eqn:Hr.
    + cbn [collapse_newlines_go]. by rewrite Hc, Hr, IH.
    + apply Nat.ltb_ge in Hr.
      rewrite (collapse_newlines_go_ge2 r) by done.
      rewrite (collapse_newlines_go_ge2 (S r)) by lia. apply IH.
  - cbn [collapse_newlines_go]. by rewrite Hc, IH.
Qed.

(** X21.  The two replacements that clean the rendered text are
    idempotent, and the first leaves no tab behind. *)
Theorem cleanup_idempotent (s : string) :
  collapse_blanks (collapse_blanks s) = collapse_blanks s
  ∧ contains tab (collapse_blanks s) = false
  ∧ collapse_newlines (collapse_newlines s) = collapse_newlines s.
Proof.
  split_and!.
  - apply collapse_blanks_go_idem.
  - apply collapse_blanks_go_no_tab.
  - apply collapse_newlines_go_idem.
Qed.

(** ** Trimming *)

Lemma string_app_cons c (s1 s2 : string) :
  String c s1 +:+ s2 = String c (s1 +:+ s2).
Proof. done. Qed.

Lemma string_app_nil_l (s : string) : "" +:+ s = s.
Proof. done. Qed.

Lemma string_app_assoc (s1 s2 s3 : string) :
  (s1 +:+ s2) +:+ s3 = s1 +:+ (s2 +:+ s3).
Proof.
  induction s1 as [|c s1 IH]; [done|]. by rewrite !string_app_cons, IH.
Qed.

Lemma rev_app_spec s1 s2 : String.rev_app s1 s2 = String.rev s1 +:+ s2.
Proof.
  unfold String.rev. revert s2.
  induction s1 as [|c s1 IH]; intros s2; simpl; [done|].
  rewrite (IH (String c s2)), (IH (String c "")).
  by rewrite string_app_assoc.
Qed.

Lemma rev_cons c s : String.rev (String c s) = String.rev s +:+ String c "".
Proof. unfold String.rev at 1. simpl. apply rev_app_spec. Qed.

Lemma rev_snoc s c : String.rev (s +:+ String c "") = String c (String.rev s).
Proof.
  induction s as [|a s IH]; [done|].
  by rewrite string_app_cons, !rev_cons, IH.
Qed.

Lemma rev_involutive s : String.rev (String.rev s) = s.
Proof.
  induction s as [|c s IH]; [done|]. by rewrite rev_cons, rev_snoc, IH.
Qed.

Lemma ltrim_idem s : Str.ltrim (Str.ltrim s) = Str.ltrim s.
Proof.
  induction s as [|c s IH]; [done|]. simpl.
  destruct (Str.is_ws c) eqn:Hc; [done|]. simpl. by rewrite Hc.
Qed.

Lemma ltrim_snoc s c :
  Str.is_ws c = false →
  Str.ltrim (s +:+ String c "") = Str.ltrim s +:+ String c "".
Proof.
  intros Hc. induction s as [|a s IH].
  - rewrite string_app_nil_l. simpl. by rewrite Hc.
  - rewrite string_app_cons. simpl. by destruct (Str.is_ws a).
Qed.

Lemma ltrim_head s : Str.ltrim s = "" ∨ ∃ c s', Str.ltrim s = String c s' ∧ Str.is_ws c = false.
Proof.
  induction s as [|c s IH]; simpl; [by left|].
  destruct (Str.is_ws c) eqn:Hc; [done|]. right. by eauto.
Qed.

Lemma rtrim_cons c s :
  Str.is_ws c = false → Str.rtrim (String c s) = String c (Str.rtrim s).
Proof.
  intros Hc. unfold Str.rtrim. by rewrite rev_cons, ltrim_snoc, rev_snoc.
Qed.

Lemma trim_idem s : Str.trim (Str.trim s) = Str.trim s.
Proof.
  unfold Str.trim.
  assert (Hl : Str.ltrim (Str.rtrim (Str.ltrim s)) = Str.rtrim (Str.ltrim s)).
  { destruct (ltrim_head s) as [->|(c & s' & -> & Hc)]; [done|].
    rewrite rtrim_cons by done. simpl. by rewrite Hc. }
  rewrite Hl. unfold Str.rtrim at 1 2. by rewrite rev_involutive, ltrim_idem.
Qed.

(** X22.  Trimming is idempotent; so the bodies [_getJsonLd] returns,
    one per JSON-LD script, and the text [trimmedInnerText] returns are
    fixed by a second trim. *)
Theorem trimmed_once (d : Document) :
  (∀ s, Str.trim (Str.trim s) = Str.trim s)
  ∧ Forall (λ body, Str.trim body = body) (_getJsonLd d)
  ∧ length (_getJsonLd d)
    = length (querySelectorAll_trees d (doc_children d) jsonld_selector)
  ∧ ∀ n, Str.trim (trimmedInnerText d n) = trimmedInnerText d n.
Proof.
  split_and!.
  - apply trim_idem.
  - unfold _getJsonLd. apply Forall_fmap, Forall_forall. intros script _.
    apply trim_idem.
  - unfold _getJsonLd. by rewrite length_fmap.
  - intros n. unfold trimmedInnerText.
    destruct (Str.eqb _ _); [done|apply trim_idem].
Qed.

(** ** Meta tags and metadata fields *)

Lemma meta_step_spec d results m :
  _getMetaTags_step d results m
  = match meta_key d m, getAttribute d m "content" with
    | Some key, Some content => Obj.set key content results
    | _, _ => results
    end.
Proof.
  unfold _getMetaTags_step, meta_key.
  destruct (hasAttribute d m "name") eqn:Hn.
  - apply hasAttribute_true in Hn as [k Hk]. by rewrite Hk.
  - apply hasAttribute_false in Hn. rewrite Hn.
    destruct (hasAttribute d m "property") eqn:Hp.
    + apply hasAttribute_true in Hp as [k Hk]. by rewrite Hk.
    + apply hasAttribute_false in Hp. by rewrite Hp.
Qed.

Lemma meta_fold_get d key metas acc :
  key ≠ "__proto__" →
  Obj.get key (foldl (_getMetaTags_step d) acc metas)
  = match last (omap (meta_content_for d key) metas) with
    | Some content => Some content
    | None => Obj.get key acc
    end.
Proof.
  intros Hkey. revert acc. induction metas as [|m metas IH]; intros acc; [done|].
  cbn [foldl omap list_omap]. rewrite IH, meta_step_spec.
  unfold meta_content_for at 2.
  destruct (meta_key d m) as [k|] eqn:Hk.
  - destruct (getAttribute d m "content") as [c|] eqn:Hc.
    + destruct (decide (Some k = Some key)) as [[= ->]|Hne].
      * rewrite last_cons. destruct (last _); [done|].
        unfold Obj.set. rewrite decide_False by done. apply get_set_own_eq.
      * destruct (last _); [done|].
        unfold Obj.set. case_decide; [done|].
        apply get_set_own_ne. congruence.
    + by case_decide.
  - by rewrite decide_False.
Qed.

(** X23.  Under a key other than ["__proto__"], [_getMetaTags] holds the
    [content] of the last [meta] element, in document order, that has a
    [content] and whose [name], or whose [property] when it has no
    [name], is that key; it holds nothing under ["__proto__"]. *)
Theorem meta_tags_last_wins (d : Document) (key : string) :
  Obj.get key (_getMetaTags d)
  = if decide (key = "__proto__") then None
    else last (omap (meta_content_for d key)
                    (querySelectorAll d (doc_children d) [[SType "meta"]])).
Proof.
  unfold _getMetaTags. case_decide as Hkey.
  - subst key.
    apply (foldl_invariant (λ o : Obj.t string, Obj.get "__proto__" o = None));
      [done|].
    intros o m _ Ho. rewrite meta_step_spec.
    destruct (meta_key d m); [|done].
    destruct (getAttribute d m "content"); [|done].
    unfold Obj.set. case_decide; [done|].
    rewrite get_set_own_ne; done.
  - rewrite meta_fold_get by done. by destruct (last _).
Qed.

Lemma no_shadowing_meta d :
  (∀ m, m ∈ querySelectorAll d (doc_children d) [[SType "meta"]] →
        meta_content_for d "hasOwnProperty" m = None) →
  Obj.get "hasOwnProperty" (_getMetaTags d) = None.
Proof.
  intros Hnone. unfold _getMetaTags. rewrite meta_fold_get by done.
  replace (omap (meta_content_for d "hasOwnProperty")
                (querySelectorAll d (doc_children d) [[SType "meta"]]))
    with (@nil string); [done|].
  symmetry. induction (querySelectorAll d (doc_children d) [[SType "meta"]])
    as [|m l IH]; [done|].
  cbn [omap list_omap]. rewrite (Hnone m) by left.
  apply IH. intros m' Hm'. apply Hnone. by right.
Qed.

(** C8 (as amended).  On a page whose microdata extraction returns and
    on which no [meta] element with a [content] is named
    [hasOwnProperty], [getPageMetadata] returns.  The [jsonld] field of
    its result is absent on a page without JSON-LD scripts; otherwise it
    is the value of the trimmed bodies of all the scripts joined by
    commas when that one text parses, and the array of the trimmed
    bodies when it does not. *)
Theorem getPageMetadata_jsonld {Item : Type}
    (information : Document → node → completion Item) (d : Document)
    (items : list Item) :
  _getMicrodata information d = Normal items →
  (∀ m, m ∈ querySelectorAll d (doc_children d) [[SType "meta"]] →
        meta_content_for d "hasOwnProperty" m = None) →
  ∃ results,
    getPageMetadata information d = Normal results
    ∧ jsonld results
      = match _getJsonLd d with
        | [] => None
        | bodies =>
            Some match JSON.parse (Str.join "," bodies) with
                 | Normal value => Parsed value
                 | Throw _ => Unparsed bodies
                 end
        end.
Proof.
  intros Hitems Hmeta. apply no_shadowing_meta in Hmeta.
  unfold getPageMetadata. rewrite Hitems. simpl.
  pose proof (meta_tags_loop_spec (_getMetaTags d)) as Hloop.
  destruct (meta_tags_loop _ _) as [has|e].
  2: { destruct Hloop as [[? Hsome] _]. congruence. }
  assert (Hld : ∀ bodies : list string, ∃ v,
            parse_jsonld bodies = Normal v
            ∧ v = match JSON.parse (Str.join "," bodies) with
                  | Normal value => Parsed value
                  | Throw _ => Unparsed bodies
                  end).
  { intros bodies. unfold parse_jsonld.
    destruct (JSON.parse _); simpl; eauto. }
  destruct (_getJsonLd d) as [|body bodies]; simpl; [by eauto|].
  destruct (Hld (body :: bodies)) as (v & -> & ->). simpl. by eauto.
Qed.

Lemma getPageMetadata_jsonld_witness :
  ∃ results : Metadata unit,
    getPageMetadata (λ _ _, Normal tt) Sample3.padded_invalid = Normal results
    ∧ jsonld results
      = match _getJsonLd Sample3.padded_invalid with
        | [] => None
        | bodies =>
            Some match JSON.parse (Str.join "," bodies) with
                 | Normal value => Parsed value
                 | Throw _ => Unparsed bodies
                 end
        end.
Proof.
  apply (getPageMetadata_jsonld (λ _ _, Normal tt) Sample3.padded_invalid []).
  - reflexivity.
  - intros m Hm. vm_compute in Hm. by apply elem_of_nil in Hm.
Defined.

(** C8 (as stated) fails: where the call returns, the field holds the
    array of the trimmed bodies rather than the text of the script; and
    two scripts that are not JSON texts can join to one, in which case
    the field is the parsed value. *)
Lemma jsonld_fallback_differs :
  textContent (Elem 2 [Text " {bad "] None) = " {bad "
  ∧ (∀ Item (information : Document → node → completion Item),
      jsonld <$> getPageMetadata information Sample3.padded_invalid
      = Normal (Some (Unparsed ["{bad"])))
  ∧ (∀ Item (information : Document → node → completion Item),
      jsonld <$> getPageMetadata information Sample3.two_fragments
      = Normal (Some (Parsed (JArray [JNumber "1"; JNumber "2"]))))
  ∧ (λ script, JSON.parse (textContent script))
      <$> querySelectorAll_trees Sample3.two_fragments
            (doc_children Sample3.two_fragments) jsonld_selector
    = [Throw (SyntaxError "Unexpected token in JSON");
       Throw (SyntaxError "Unexpected non-whitespace character after JSON")]
  ∧ ¬ (∀ Item (information : Document → node → completion Item) d script,
         script ∈ querySelectorAll_trees d (doc_children d) jsonld_selector →
         (∃ e, JSON.parse (textContent script) = Throw e) →
         ∃ results, getPageMetadata information d = Normal results
                    ∧ jsonld results = Some (Unparsed [textContent script])).
Proof.
  split_and!.
  - done.
  - intros Item information. by vm_compute.
  - intros Item information. by vm_compute.
  - by vm_compute.
  - intros Hclaim.
    destruct (Hclaim unit (λ _ _, Normal tt) Sample3.padded_invalid
                (Elem 2 [Text " {bad "] None)) as (results & Hres & Hld).
    + vm_compute. left.
    + eexists. by vm_compute.
    + vm_compute in Hres. injection Hres as <-. by vm_compute in Hld.
Qed.

(** X27.  A [meta] element named [hasOwnProperty] that has a [content]
    makes [getPageMetadata] throw a [TypeError], whatever else the page
    holds, once the microdata extraction has returned: the string stored
    under that key hides the method the last loop calls. *)
Theorem shadowed_hasOwnProperty_throws {Item : Type}
    (information : Document → node → completion Item) (d : Document)
    (items : list Item) (m : node) (content : string) :
  _getMicrodata information d = Normal items →
  m ∈ querySelectorAll d (doc_children d) [[SType "meta"]] →
  meta_content_for d "hasOwnProperty" m = Some content →
  ∃ message, getPageMetadata information d = Throw (TypeError message).
Proof.
  intros Hitems Hm Hcontent.
  assert (Hown : is_Some (Obj.get "hasOwnProperty" (_getMetaTags d))).
  { unfold _getMetaTags. rewrite meta_fold_get by done.
    destruct (last_is_Some
                (omap (meta_content_for d "hasOwnProperty")
                      (querySelectorAll d (doc_children d) [[SType "meta"]]))
                content) as [c ->]; [|done].
    apply list_elem_of_omap. by exists m. }
  unfold getPageMetadata. rewrite Hitems. simpl.
  destruct (if Nat.ltb 0 (length (_getJsonLd d))
            then Some <$> parse_jsonld (_getJsonLd d) else Normal None)
    as [ld|] eqn:Hld.
  2: { destruct (Nat.ltb _ _); [|done]. unfold parse_jsonld in Hld.
       by destruct (JSON.parse _). }
  simpl. pose proof (meta_tags_loop_spec (_getMetaTags d)) as Hloop.
  destruct (meta_tags_loop _ _) as [has|e]; simpl.
  - destruct Hown as [? Hown]. congruence.
  - destruct Hloop as [_ ->]. by eexists.
Qed.

Lemma shadowed_hasOwnProperty_throws_witness :
  ∃ message,
    getPageMetadata (Item:=unit) (λ _ _, Normal tt) Sample3.hostile_meta
    = Throw (TypeError message).
Proof.
  apply (shadowed_hasOwnProperty_throws (λ _ _, Normal tt)
           Sample3.hostile_meta [] 3 "x").
  - reflexivity.
  - vm_compute. left.
  - reflexivity.
Defined.

Lemma mapM_length {A B} (f : A → completion B) l items :
  mapM f l = Normal items → length items = length l.
Proof.
  revert items. induction l as [|x l IH]; intros items; simpl.
  - by intros [= <-].
  - destruct (f x) as [y|]; simpl; [|done].
    destruct (mapM f l) as [ys|]; simpl; [|done].
    intros [= <-]. simpl. f_equal. by apply IH.
Qed.

Lemma get_is_Some {V} (o : Obj.t V) k v : (k, v) ∈ o → is_Some (Obj.get k o).
Proof.
  induction o as [|[k' v'] o IH]; [by intros ?%elem_of_nil|].
  simpl. case_decide; [by eauto|].
  intros [[= -> ->]|Hin]%elem_of_cons; [done|by apply IH].
Qed.

(** X24.  When [getPageMetadata] returns, its result has a [microdata]
    field exactly when the document has an [itemscope] element, with one
    item per such element, and a [meta_tags] field exactly when
    [_getMetaTags] is not empty, holding that object. *)
Theorem metadata_fields {Item : Type}
    (information : Document → node → completion Item) (d : Document)
    (results : Metadata Item) :
  getPageMetadata information d = Normal results →
  let scoped := querySelectorAll d (doc_children d) [[SAttr "itemscope"]] in
  match microdata results with
  | Some items => length items = length scoped ∧ scoped ≠ []
  | None => scoped = []
  end
  ∧ meta_tags results
    = match _getMetaTags d with [] => None | tags => Some tags end.
Proof.
  intros Hres scoped. unfold getPageMetadata, _getMicrodata in Hres.
  fold scoped in Hres.
  destruct (mapM (information d) scoped) as [items|] eqn:Hitems;
    simpl in Hres; [|done].
  apply mapM_length in Hitems.
  destruct (if Nat.ltb 0 (length (_getJsonLd d))
            then Some <$> parse_jsonld (_getJsonLd d) else Normal None)
    as [ld|]; simpl in Hres; [|done].
  pose proof (meta_tags_loop_spec (_getMetaTags d)) as Hloop.
  destruct (meta_tags_loop _ _) as [has|] eqn:Hmeta; simpl in Hres; [|done].
  injection Hres as <-. simpl. split.
  - destruct items as [|item items]; simpl.
    + by destruct scoped.
    + split; [done|]. by destruct scoped.
  - pose proof (entries_perm (_getMetaTags d)) as Hperm.
    destruct (_getMetaTags d) as [|kv tags] eqn:Htags.
    + apply Permutation_nil_r in Hperm. rewrite Hperm in Hmeta.
      simpl in Hmeta. by injection Hmeta as <-.
    + destruct (Obj.entries (kv :: tags)) as [|[k v] l] eqn:He.
      { by apply Permutation_nil_cons in Hperm. }
      assert (Hk : is_Some (Obj.get k (kv :: tags))).
      { apply (get_is_Some _ k v). rewrite <- Hperm. left. }
      cbn [fmap list_fmap fst meta_tags_loop] in Hmeta.
      unfold hasOwnProperty in Hmeta. rewrite Hloop in Hmeta.
      rewrite bool_decide_eq_true_2 in Hmeta by done.
      simpl in Hmeta. by injection Hmeta as <-.
Qed.

Lemma metadata_fields_witness :
  ∃ results : Metadata unit,
    getPageMetadata (λ _ _, Normal tt) Sample5.tagged = Normal results
    ∧ (let scoped :=
         querySelectorAll Sample5.tagged (doc_children Sample5.tagged)
                          [[SAttr "itemscope"]] in
       match microdata results with
       | Some items => length items = length scoped ∧ scoped ≠ []
       | None => scoped = []
       end
       ∧ meta_tags results
         = match _getMetaTags Sample5.tagged with
           | [] => None
           | tags => Some tags
           end).
Proof.
  eexists. split; [vm_compute; reflexivity|].
  apply (metadata_fields (λ _ _, Normal tt) Sample5.tagged).
  vm_compute. reflexivity.
Defined.

Lemma join_empty_bodies bodies :
  Forall (λ body : string, body = "") bodies →
  Str.join "," bodies = "" ∨ ∃ s, Str.join "," bodies = String "," s.
Proof.
  induction 1 as [|body bodies -> _ IH]; [by left|].
  simpl. destruct bodies as [|body' bodies]; [by left|].
  right. by eauto.
Qed.

Lemma parse_rejects_comma s :
  s = "" ∨ (∃ s', s = String "," s') → ∃ e, JSON.parse s = Throw e.
Proof.
  intros [->|[s' ->]]; [by eexists|].
  unfold JSON.parse.
  change (JSON.skip_ws (String "," s')) with (String "," s').
  destruct (2 * String.length (String "," s') + 2)%nat as [|fuel] eqn:Hfuel;
    [simpl in Hfuel; lia|].
  by eexists.
Qed.

(** X25.  When every JSON-LD script of the page is empty or holds white
    space only, the text handed to [JSON.parse] is empty or starts with a
    comma, the parse fails, and the [jsonld] field is the array of empty
    strings, one per script. *)
Theorem empty_jsonld_scripts {Item : Type}
    (information : Document → node → completion Item) (d : Document)
    (results : Metadata Item) :
  getPageMetadata information d = Normal results →
  _getJsonLd d ≠ [] →
  Forall (λ body, body = "") (_getJsonLd d) →
  jsonld results = Some (Unparsed (_getJsonLd d)).
Proof.
  intros Hres Hne Hempty. unfold getPageMetadata in Hres.
  destruct (_getMicrodata information d); simpl in Hres; [|done].
  destruct (parse_rejects_comma _ (join_empty_bodies _ Hempty)) as [e He].
  destruct (_getJsonLd d) as [|body bodies] eqn:Hld; [done|].
  unfold parse_jsonld in Hres. rewrite He in Hres. simpl in Hres.
  destruct (meta_tags_loop _ _); simpl in Hres; [|done].
  by injection Hres as <-.
Qed.

Lemma empty_jsonld_scripts_witness :
  ∃ results : Metadata unit,
    getPageMetadata (λ _ _, Normal tt) Sample6.empty_scripts = Normal results
    ∧ jsonld results = Some (Unparsed (_getJsonLd Sample6.empty_scripts)).
Proof.
  eexists. split; [vm_compute; reflexivity|].
  apply (empty_jsonld_scripts (λ _ _, Normal tt) Sample6.empty_scripts).
  - vm_compute. reflexivity.
  - vm_compute. discriminate.
  - vm_compute. repeat constructor.
Defined.

(** ** Occlusion and the second pass *)

(** X26.  An enabled, visible [input], [select], [textarea] or [button]
    of the document tree or of a reachable open shadow tree is returned
    by [getInteractiveElements] whether or not anything covers it: the
    second pass makes no hit test. *)
Theorem standard_controls_survive_occlusion (d : Document) (l : list node)
    (scope : list Tree) (n : node) :
  getInteractiveElements d = Normal l →
  reachable d scope → n ∈ scope_elements scope →
  tag d n ∈ ["input"; "select"; "textarea"; "button"] →
  disabled (element d n) = false → isVisible d n = true →
  n ∈ l.
Proof.
  intros Hl Hreach Hin Htag Hdis Hvis.
  assert (Hg : n ∈ gatherAllElements d interactive_selector).
  { apply gatherAllElements_spec. exists scope. split; [done|].
    unfold querySelectorAll. apply list_elem_of_filter. split; [|done].
    unfold matches, interactive_selector, tag in *.
    cbn [existsb forallb simple_matches].
    repeat (apply elem_of_cons in Htag as [->|Htag]; [by vm_compute|]).
    by apply elem_of_nil in Htag. }
  revert Hl. unfold getInteractiveElements.
  destruct (getInteractiveElementsNoShaddow d) as [l0|e]; [|done]. simpl.
  intros [= <-].
  apply (foldl_push_elem _ _ _ n n); [| |done].
  - intros a m y Hy.
    repeat (match goal with |- context [if ?c then _ else _] => destruct c end);
      try done; apply elem_of_push; by left.
  - intros a. rewrite Hdis, Hvis. simpl.
    assert (Hrole : bool_decide (tag d n ∈ interactive_roles) = true).
    { apply bool_decide_eq_true. unfold interactive_roles.
      repeat (apply elem_of_cons in Htag as [->|Htag]; [set_solver|]).
      by apply elem_of_nil in Htag. }
    rewrite Hrole.
    destruct (_ && _); [apply elem_of_push; by right|].
    destruct (Str.eqb _ _); apply elem_of_push; by right.
Qed.

Lemma standard_controls_survive_occlusion_witness :
  has_topmost_rect Sample.covered_button 2 = false
  ∧ ∃ l, getInteractiveElements Sample.covered_button = Normal l ∧ 2 ∈ l.
Proof.
  split; [reflexivity|]. eexists. split; [vm_compute; reflexivity|].
  refine (standard_controls_survive_occlusion Sample.covered_button _
            (doc_children Sample.covered_button) 2 _ _ _ _ _ _).
  - vm_compute. reflexivity.
  - apply reach_root. left.
  - vm_compute. do 2 right. left.
  - vm_compute. do 3 right. left.
  - reflexivity.
  - reflexivity.
Defined.
